(** * Zapatos schema-to-type generator: [generate/tables.ts] and [generate/tsOutput.ts]

    A shallow embedding of the generator.  JavaScript strings are sequences
    of code units; here they are [string]s (8-bit code units), which is
    exact for the ASCII text the generator itself emits.  Plain objects used
    as dictionaries ([CustomTypes], [columnOptions]) are finite maps over
    their own properties.  Asynchronous code is a state-and-rejection monad
    over the registry of custom types and the log of pool events. *)

From stdpp Require Import base option list strings gmap sorting.
From Stdlib Require Import Ascii.
From Stdlib Require String.

Local Open Scope char_scope.
Local Open Scope stdpp_scope.

(** ** Strings *)

Definition nl : string := String "010" "".

(** [arr.join(sep)] *)
Definition join (sep : string) (arr : list string) : string := String.concat sep arr.

Definition inRange (lo hi : nat) (c : ascii) : bool :=
  (lo <=? nat_of_ascii c)%nat && (nat_of_ascii c <=? hi)%nat.

(** The regular expression class [\w]; [\W] is its complement. *)
Definition isWordChar (c : ascii) : bool :=
  inRange 48 57 c || inRange 65 90 c || inRange 97 122 c || Ascii.eqb c "_".

(** The class [\s] on 8-bit code units. *)
Definition isWhiteSpace (c : ascii) : bool :=
  inRange 9 13 c || Ascii.eqb c " " || Ascii.eqb c "160".

(** [^] with the [m] flag matches after one of these. *)
Definition isLineTerminator (c : ascii) : bool :=
  Ascii.eqb c "010" || Ascii.eqb c "013".

(** [c.toUpperCase()] for one code unit; the generator only applies it to
    word characters. *)
Definition toUpperCase (c : ascii) : ascii :=
  if inRange 97 122 c then ascii_of_nat (nat_of_ascii c - 32) else c.

(** [s.replace(/\W+/g, rep)]: [inRun] tells whether the previous code unit
    already belonged to the current run of non-word characters. *)
Fixpoint replaceNonWord (rep : string) (inRun : bool) (s : string) : string :=
  match s with
  | EmptyString => ""
  | String c s' =>
      if isWordChar c then String c (replaceNonWord rep false s')
      else if inRun then replaceNonWord rep true s'
      else rep +:+ replaceNonWord rep true s'
  end.

(** [s.replace(/_[^_]/g, m => m.charAt(1).toUpperCase())] *)
Fixpoint replaceUnderscoreThenChar (s : string) : string :=
  match s with
  | EmptyString => ""
  | String a rest =>
      if Ascii.eqb a "_" then
        match rest with
        | EmptyString => "_"
        | String c s' =>
            if Ascii.eqb c "_" then String "_" (replaceUnderscoreThenChar rest)
            else String (toUpperCase c) (replaceUnderscoreThenChar s')
        end
      else String a (replaceUnderscoreThenChar rest)
  end.

(** [s.charAt(0).toUpperCase() + s.slice(1)] *)
Definition upperFirst (s : string) : string :=
  match s with
  | EmptyString => ""
  | String c s' => String (toUpperCase c) s'
  end.

(** The lookahead [(?=[ \t]*\S)] at the start of [s]. *)
Fixpoint lineHasContent (s : string) : bool :=
  match s with
  | EmptyString => false
  | String c s' =>
      if Ascii.eqb c " " || Ascii.eqb c "009" then lineHasContent s'
      else negb (isWhiteSpace c)
  end.

(** [s.replace(/^(?=[ \t]*\S)/gm, '  ')]: [atStart] tells whether the
    current position is the start of a line. *)
Fixpoint indentLines (atStart : bool) (s : string) : string :=
  match s with
  | EmptyString => ""
  | String c s' =>
      (if atStart && lineHasContent s then "  " else "") +:+
      String c (indentLines (isLineTerminator c) s')
  end.

(** ** Sorting

    [Array.prototype.sort] is stable; [jsSortBy le] is the stable insertion
    sort for the comparator [le a b], read as "the comparator does not put
    [b] before [a]". *)

Fixpoint jsInsert {A} (le : A → A → bool) (x : A) (l : list A) : list A :=
  match l with
  | [] => [x]
  | y :: l' => if le x y then x :: l else y :: jsInsert le x l'
  end.

Definition jsSortBy {A} (le : A → A → bool) (l : list A) : list A :=
  foldr (jsInsert le) [] l.

(** [arr.sort()] on strings: ascending order of code units. *)
Definition jsSort (arr : list string) : list string := jsSortBy String.leb arr.

(** ** Data model *)

Inductive RelationType := table | mview.

Global Instance RelationType_eq_dec : EqDecision RelationType.
Proof. solve_decision. Defined.

(** [interface Relation] *)
Record Relation := { name : string; type : RelationType }.

Global Instance Relation_eq_dec : EqDecision Relation.
Proof. solve_decision. Defined.

(** One row of [columnsForRelation]; the three flags are the truthiness of
    the values the query returns. *)
Record ColumnRow := {
  column : string;
  isGenerated : bool;
  isNullable : bool;
  hasDefault : bool;
  udtName : string;
  domainName : option string
}.

(** Modelled from the spec: the type [EnumData] of the absent [enums.ts],
    a mapping from enum type name to its ordered member list. *)
Definition EnumData : Type := list (string * list string).

(** [interface CustomTypes]: any, or TS type for domain's base type. *)
Abbreviation CustomTypes := (gmap string string).

Inductive InsertOption := insertOptional | insertExcluded.
Inductive UpdateOption := updateExcluded.

Global Instance InsertOption_eq_dec : EqDecision InsertOption.
Proof. solve_decision. Defined.

Global Instance UpdateOption_eq_dec : EqDecision UpdateOption.
Proof. solve_decision. Defined.

(** One entry of [config.columnOptions[rel][column]]. *)
Module ColumnOptions.
Record t := { insert : option InsertOption; update : option UpdateOption }.
End ColumnOptions.

Inductive CustomTypesTransform :=
| my_type
| PgMyType
| PgMy_type
| transformFunction (ctt : string → string).

(** ['*' | string[]] *)
Inductive NameRule := star | names (l : list string).

Record SchemaRules := { include : NameRule; exclude : NameRule }.

(** ** The catalog behind the pool *)

Inductive QueryResult (A : Type) :=
| rows (r : A)
| queryError (e : string).
Arguments rows {A} r.
Arguments queryError {A} e.

(** What the database answers to the four kinds of query the generator
    sends (relations of a schema, columns of a relation, unique indexes of
    a relation, and the enum query of the absent [enumDataForSchema]). *)
Record Catalog := {
  relationRows : string → QueryResult (list Relation);
  columnRows : Relation → string → QueryResult (list ColumnRow);
  uniqueIndexRows : string → QueryResult (list string);
  enumRows : string → QueryResult EnumData
}.

(** [CompleteConfig]: [db] stands for the database the pool connects to;
    [schemas] lists the entries of the [schemas] object in [Object.keys]
    order. *)
Record CompleteConfig := {
  db : Catalog;
  schemas : list (string * SchemaRules);
  columnOptions : gmap string (gmap string ColumnOptions.t);
  customTypesTransform : CustomTypesTransform
}.

(** [obj[key]] on a plain object used as a dictionary: an own property
    of the object; else a member inherited from [Object.prototype], named
    by its key; else [undefined]. *)
Inductive Property (A : Type) :=
| ownProperty (a : A)
| inheritedProperty (key : string)
| noProperty.
Arguments ownProperty {A} a.
Arguments inheritedProperty {A} key.
Arguments noProperty {A}.

(** The functions imported from modules outside [tables.ts] and
    [tsOutput.ts], and what the code takes from the runtime:
    [String.prototype.localeCompare], and the members a plain object
    inherits.  [inheritedMember key]: an object without own property
    [key] answers [obj[key]] with a member of [Object.prototype], a value
    that is neither null nor undefined; [memberOfInherited key k]: that
    member in turn answers [[k]] with a value that is neither null nor
    undefined.  None of these values has a property [insert] or
    [update].  A property access that throws is not modelled. *)
Class Imports := {
  tsTypeForPgType : string → EnumData → string;
  enumTypesForEnumData : EnumData → string;
  header : string;
  localeCompare : string → string → Z;
  inheritedMember : string → bool;
  memberOfInherited : string → string → bool
}.

(** [obj[key] = value] for a string [value] on a plain object: every key
    becomes an own property but [__proto__], whose setter, inherited from
    [Object.prototype], ignores a value that is not an object. *)
Definition setProperty (key value : string) (obj : gmap string string)
  : gmap string string :=
  if bool_decide (key = "__proto__") then obj else <[key := value]> obj.

(** ** Asynchronous code

    The pool is observed through the events it receives: its creation,
    the queries sent to it, its end.  A promise either resolves with a
    value or rejects with an error; an [await] on a rejected promise
    abandons the rest of the awaiting function, which rejects in turn. *)

Inductive Query :=
| relationsQuery (schemaName : string)
| columnsQuery (rel : Relation) (schemaName : string)
| uniqueIndexesQuery (relName : string)
| enumsQuery (schemaName : string).

Inductive Event :=
| poolNew
| poolQuery (q : Query)
| poolEnd.

Global Instance Query_eq_dec : EqDecision Query.
Proof. solve_decision. Defined.

Global Instance Event_eq_dec : EqDecision Event.
Proof. solve_decision. Defined.

Inductive Outcome (A : Type) :=
| resolved (a : A)
| rejected (e : string).
Arguments resolved {A} a.
Arguments rejected {A} e.

(** The [customTypes] object of a run, and the events the pool has seen. *)
Record World := { registry : CustomTypes; events : list Event }.

Definition Async (A : Type) : Type := World → Outcome A * World.

Global Instance Async_ret : MRet Async := λ A a w, (resolved a, w).

Global Instance Async_bind : MBind Async := λ A B f m w,
  match m w with
  | (resolved a, w') => f a w'
  | (rejected e, w') => (rejected e, w')
  end.

Definition emit (ev : Event) : Async unit := λ w,
  (resolved (), {| registry := registry w; events := events w ++ [ev] |}).

Definition getCustomTypes : Async CustomTypes := λ w, (resolved (registry w), w).

Definition setCustomTypes (customTypes : CustomTypes) : Async unit := λ w,
  (resolved (), {| registry := customTypes; events := events w |}).

(** [await pool.query(q)], answered by the catalog. *)
Definition query {A} (q : Query) (answer : QueryResult A) : Async A := λ w,
  let w' := {| registry := registry w; events := events w ++ [poolQuery q] |} in
  match answer with
  | rows r => (resolved r, w')
  | queryError e => (rejected e, w')
  end.

(** [values[index] = value] in [Promise.all]. *)
Definition settle {A} (index : nat) (value : A) (values : list (option A))
  : list (option A) := <[index := Some value]> values.

(** [await Promise.all(tasks)].  The tasks are run here to their end one
    after the other, in an order the caller does not control: [picks]
    names, at each step, which of the still pending tasks runs next
    ([picks] exhausted, the first one); every order of the tasks is the
    order of some [picks].  The values come back in the order of
    [tasks], whatever the order the tasks ran in; the first rejection
    rejects the whole.

    This is coarser than the event loop in two respects.  The steps of
    different tasks are not interleaved: in the code the queries of the
    tasks reach the pool in any interleaving, and a task writes the
    registry in one synchronous stretch between two of its awaits.
    And the tasks still pending at a rejection are dropped: in the code
    they run on, unobserved by the caller.  The properties below rely on
    neither: of the registry they state its keys and, for one task, its
    content; of the log, which events it holds and that the pool is
    created first and ended last; of the results, values that do not
    depend on the world. *)
Fixpoint promiseAllFrom {A} (picks : list nat) (pending : list (nat * Async A))
    (steps : nat) (values : list (option A)) : Async (list A) :=
  match steps with
  | O => mret (omap id values)
  | S steps' =>
      match pending !! (hd 0%nat picks `mod` length pending)%nat with
      | None => mret (omap id values)
      | Some (index, task) =>
          value ← task;
          promiseAllFrom (tl picks)
            (delete (hd 0%nat picks `mod` length pending)%nat pending)
            steps' (settle index value values)
      end
  end.

Definition promiseAll {A} (picks : list nat) (tasks : list (Async A)) : Async (list A) :=
  promiseAllFrom picks (imap pair tasks) (length tasks)
                 (replicate (length tasks) None).

(** The order in which the tasks of each [Promise.all] of a run complete. *)
Record Schedule := {
  schemaPicks : list nat;
  tablePicks : string → list nat
}.

Section Generate.
Context `{Imports}.

(** ** [tables.ts] *)

Definition transformCustomType (customType : string) (config : CompleteConfig) : string :=
  let underscoredType := replaceNonWord "_" false customType in
  let legalisedType := replaceNonWord "" false customType in
  match customTypesTransform config with
  | my_type => legalisedType
  | PgMyType => replaceUnderscoreThenChar ("Pg_" +:+ legalisedType)
  | PgMy_type => "Pg" +:+ upperFirst underscoredType
  | transformFunction ctt => ctt customType
  end.

(** [obj[key]] *)
Definition getProperty {A} (obj : gmap string A) (key : string) : Property A :=
  match obj !! key with
  | Some a => ownProperty a
  | None => if inheritedMember key then inheritedProperty key else noProperty
  end.

(** [table[relName] && table[relName][column]]: the own entries of
    [table] are objects, an inherited member is a function or an object;
    all are truthy. *)
Definition optionsIn (table : gmap string (gmap string ColumnOptions.t))
    (relName column : string) : Property ColumnOptions.t :=
  match getProperty table relName with
  | ownProperty forRel => getProperty forRel column
  | inheritedProperty member =>
      if memberOfInherited member column then inheritedProperty column else noProperty
  | noProperty => noProperty
  end.

(** [(config.columnOptions[rel.name] && config.columnOptions[rel.name][column]) ??
     (config.columnOptions["*"] && config.columnOptions["*"][column])] *)
Definition columnOptionsFor (config : CompleteConfig) (relName column : string)
  : Property ColumnOptions.t :=
  match optionsIn (columnOptions config) relName column with
  | noProperty => optionsIn (columnOptions config) "*" column
  | found => found
  end.

(** [columnOptions?.insert] *)
Definition insertOf (columnOptions : Property ColumnOptions.t) : option InsertOption :=
  match columnOptions with
  | ownProperty o => ColumnOptions.insert o
  | _ => None
  end.

(** [columnOptions?.update] *)
Definition updateOf (columnOptions : Property ColumnOptions.t) : option UpdateOption :=
  match columnOptions with
  | ownProperty o => ColumnOptions.update o
  | _ => None
  end.

Definition isInsertable (row : ColumnRow) (o : Property ColumnOptions.t) : bool :=
  negb (isGenerated row) &&
  negb (bool_decide (insertOf o = Some insertExcluded)).

Definition isUpdatable (row : ColumnRow) (o : Property ColumnOptions.t) : bool :=
  negb (isGenerated row) &&
  negb (bool_decide (updateOf o = Some updateExcluded)).

Definition insertablyOptional (row : ColumnRow) (o : Property ColumnOptions.t) : string :=
  if isNullable row || hasDefault row ||
     bool_decide (insertOf o = Some insertOptional)
  then "?" else "".

Definition orNull (row : ColumnRow) : string :=
  if isNullable row then " | null" else "".

Definition orDateString (type : string) : string :=
  if bool_decide (type = "Date") then " | db.DateString"
  else if bool_decide (type = "Date[]") then " | db.DateString[]" else "".

Definition orDefault (row : ColumnRow) : string :=
  if isNullable row || hasDefault row then " | db.DefaultType" else "".

(** The four cases of a column: the resolved type and the registry after
    the column (lines 95 and 116-123). *)
Definition resolveType (row : ColumnRow) (enums : EnumData) (config : CompleteConfig)
    (customTypes : CustomTypes) : string * CustomTypes :=
  let type := tsTypeForPgType (udtName row) enums in
  if bool_decide (type = "any") || bool_decide (domainName row ≠ None) then
    let customType := default (udtName row) (domainName row) in
    let prefixedCustomType := transformCustomType customType config in
    ("c." +:+ prefixedCustomType, setProperty prefixedCustomType type customTypes)
  else (type, customTypes).

(** The four arrays a relation's rows are pushed onto. *)
Record Shapes := {
  selectables : list string;
  whereables : list string;
  insertables : list string;
  updatables : list string
}.

Definition noShapes : Shapes :=
  {| selectables := []; whereables := []; insertables := []; updatables := [] |}.

Definition selectableDecl (row : ColumnRow) (type : string) : string :=
  column row +:+ ": " +:+ type +:+ orNull row +:+ ";".

(** [orDateString] is computed from the mapped type, before a custom type
    replaces it. *)
Definition basicWhereableTypes (mapped type : string) : string :=
  type +:+ " | db.Parameter<" +:+ type +:+ ">" +:+ orDateString mapped +:+
  " | db.SQLFragment | db.ParentColumn".

Definition whereableDecl (row : ColumnRow) (mapped type : string) : string :=
  column row +:+ "?: " +:+ basicWhereableTypes mapped type +:+
  " | db.SQLFragment<any, " +:+ basicWhereableTypes mapped type +:+ ">;".

Definition basicInsertableTypes (row : ColumnRow) (mapped type : string) : string :=
  type +:+ " | db.Parameter<" +:+ type +:+ ">" +:+ orDateString mapped +:+
  orNull row +:+ orDefault row +:+ " | db.SQLFragment".

Definition insertableDecl (row : ColumnRow) (o : Property ColumnOptions.t)
    (mapped type : string) : string :=
  column row +:+ insertablyOptional row o +:+ ": " +:+
  basicInsertableTypes row mapped type +:+ ";".

Definition updatableDecl (row : ColumnRow) (mapped type : string) : string :=
  column row +:+ "?: " +:+ basicInsertableTypes row mapped type +:+
  " | db.SQLFragment<any, " +:+ basicInsertableTypes row mapped type +:+ ">;".

(** The body of [rows.forEach(row => ...)]. *)
Definition forEachRow (rel : Relation) (enums : EnumData) (config : CompleteConfig)
    (st : Shapes * CustomTypes) (row : ColumnRow) : Shapes * CustomTypes :=
  let '(sh, customTypes) := st in
  let mapped := tsTypeForPgType (udtName row) enums in
  let o := columnOptionsFor config (name rel) (column row) in
  let '(type, customTypes') := resolveType row enums config customTypes in
  ({| selectables := selectables sh ++ [selectableDecl row type];
      whereables := whereables sh ++ [whereableDecl row mapped type];
      insertables := insertables sh ++
        (if isInsertable row o then [insertableDecl row o mapped type] else []);
      updatables := updatables sh ++
        (if isUpdatable row o then [updatableDecl row mapped type] else []) |},
   customTypes').

Definition uniqueIndexType (uniqueIndexes : list string) : string :=
  if (0 <? length uniqueIndexes)%nat
  then join " | " (map (λ indexname, "'" +:+ indexname +:+ "'") uniqueIndexes)
  else "never".

Definition tableDefText (rel : Relation) (sh : Shapes) (uniqueIndexes : list string) : string :=
  nl +:+
  "export namespace " +:+ name rel +:+ " {" +:+ nl +:+
  "  export type Table = '" +:+ name rel +:+ "';" +:+ nl +:+
  "  export interface Selectable {" +:+ nl +:+
  "    " +:+ join (nl +:+ "    ") (selectables sh) +:+ nl +:+
  "  }" +:+ nl +:+
  "  export interface Whereable {" +:+ nl +:+
  "    " +:+ join (nl +:+ "    ") (whereables sh) +:+ nl +:+
  "  }" +:+ nl +:+
  "  export interface Insertable {" +:+ nl +:+
  "    " +:+ join (nl +:+ "    ") (insertables sh) +:+ nl +:+
  "  }" +:+ nl +:+
  "  export interface Updatable {" +:+ nl +:+
  "    " +:+ join (nl +:+ "    ") (updatables sh) +:+ nl +:+
  "  }" +:+ nl +:+
  "  export interface JSONSelectable extends JSONSelectableFromSelectable<Selectable> { }" +:+ nl +:+
  "  export type UniqueIndex = " +:+ uniqueIndexType uniqueIndexes +:+ ";" +:+ nl +:+
  "  export type Column = keyof Selectable;" +:+ nl +:+
  "  export type OnlyCols<T extends readonly Column[]> = Pick<Selectable, T[number]>;" +:+ nl +:+
  "  export type SQLExpression = db.GenericSQLExpression | db.ColumnNames<Updatable | (keyof Updatable)[]> | db.ColumnValues<Updatable> | Table | Whereable | Column;" +:+ nl +:+
  "  export type SQL = SQLExpression | SQLExpression[];" +:+ nl +:+
  "}".

Definition mappedUnion (arr : list Relation) (fn : string → string) : string :=
  if bool_decide (length arr = 0%nat) then "any"
  else join " | " (map (λ rel, fn (name rel)) arr).

Definition thingables : list string :=
  ["Selectable"; "Whereable"; "Insertable"; "Updatable"; "UniqueIndex"; "Column"; "SQL"].

Definition forTableType (relations : list Relation) (thingable : string) : string :=
  nl +:+
  "export type " +:+ thingable +:+ "ForTable<T extends Table> = " +:+
  (if bool_decide (length relations = 0%nat) then "any"
   else "{" +:+
        join "" (map (λ rel, nl +:+ "  " +:+ name rel +:+ ": " +:+ name rel +:+ "." +:+
                             thingable +:+ ";") relations) +:+ nl +:+
        "}[T]") +:+ ";" +:+ nl.

Definition tableNamesOfType (t : RelationType) (relations : list Relation) : string :=
  join ", " (map (λ rel, name rel +:+ ".Table")
                 (filter (λ rel, type rel = t) relations)).

Definition crossTableTypesForTables (relations : list Relation) : string :=
  (if bool_decide (length relations = 0%nat)
   then nl +:+ "// `never` rather than `any` types would be more accurate in this no-tables case, but they stop `shortcuts.ts` compiling" +:+ nl
   else "") +:+ nl +:+
  "export type Table = " +:+ mappedUnion relations (λ name, name +:+ ".Table") +:+ ";" +:+ nl +:+
  "export type Selectable = " +:+ mappedUnion relations (λ name, name +:+ ".Selectable") +:+ ";" +:+ nl +:+
  "export type Whereable = " +:+ mappedUnion relations (λ name, name +:+ ".Whereable") +:+ ";" +:+ nl +:+
  "export type Insertable = " +:+ mappedUnion relations (λ name, name +:+ ".Insertable") +:+ ";" +:+ nl +:+
  "export type Updatable = " +:+ mappedUnion relations (λ name, name +:+ ".Updatable") +:+ ";" +:+ nl +:+
  "export type UniqueIndex = " +:+ mappedUnion relations (λ name, name +:+ ".UniqueIndex") +:+ ";" +:+ nl +:+
  "export type Column = " +:+ mappedUnion relations (λ name, name +:+ ".Column") +:+ ";" +:+ nl +:+
  "export type AllTables = [" +:+ tableNamesOfType table relations +:+ "];" +:+ nl +:+
  "export type AllMaterializedViews = [" +:+ tableNamesOfType mview relations +:+ "];" +:+ nl +:+
  nl +:+
  join "" (map (forTableType relations) thingables).

Definition relationsInSchema (schemaName : string) (pool : Catalog) : Async (list Relation) :=
  query (relationsQuery schemaName) (relationRows pool schemaName).

Definition columnsForRelation (rel : Relation) (schemaName : string) (pool : Catalog)
  : Async (list ColumnRow) :=
  query (columnsQuery rel schemaName) (columnRows pool rel schemaName).

(** Modelled from the spec: [enumDataForSchema] of the absent [enums.ts],
    one catalog query for the enum listing of a schema. *)
Definition enumDataForSchema (schemaName : string) (pool : Catalog) : Async EnumData :=
  query (enumsQuery schemaName) (enumRows pool schemaName).

(** [customTypes], the 'out' parameter, is the registry of the world. *)
Definition definitionForTableInSchema (rel : Relation) (schemaName : string)
    (enums : EnumData) (config : CompleteConfig) (pool : Catalog) : Async string :=
  rows ← columnsForRelation rel schemaName pool;
  customTypes ← getCustomTypes;
  let '(sh, customTypes') :=
    foldl (forEachRow rel enums config) (noShapes, customTypes) rows in
  setCustomTypes customTypes';;
  uniqueIndexes ← query (uniqueIndexesQuery (name rel)) (uniqueIndexRows pool (name rel));
  mret (tableDefText rel sh uniqueIndexes).

(** ** [tsOutput.ts] *)

Definition canaryVersion : string := "101".

Definition versionCanary : string :=
  nl +:+
  "// got a type error on schemaVersionCanary below? update by running `npx zapatos`" +:+ nl +:+
  "export interface schemaVersionCanary extends db.SchemaVersionCanary { version: " +:+
  canaryVersion +:+ " }" +:+ nl.

Definition declareModule (module declarations : string) : string :=
  nl +:+
  "declare module '" +:+ module +:+ "' {" +:+ nl +:+
  indentLines true declarations +:+ nl +:+
  "}" +:+ nl.

Definition customTypeHeader : string :=
  "/*" +:+ nl +:+
  "** Please edit this file as needed **" +:+ nl +:+
  "It's been generated by Zapatos as a custom type definition placeholder, and won't be overwritten" +:+ nl +:+
  "*/" +:+ nl.

Definition sourceFilesForCustomTypes (customTypes : CustomTypes) : gmap string string :=
  map_imap (λ name baseType, Some (
    customTypeHeader +:+ declareModule "zapatos/custom" (
      (if bool_decide (baseType = "db.JSONValue")
       then "import type * as db from 'zapatos/db';" +:+ nl else "") +:+
      "export type " +:+ name +:+ " = " +:+ baseType +:+
      ";  // replace with your custom type or interface as desired")))
    customTypes.

Record SchemaData := { schemaDef : string; tables : list Relation }.

Record Output := { ts : string; customTypeSourceFiles : gmap string string }.

Definition isIncluded (rule : NameRule) (rel : Relation) : bool :=
  match rule with
  | star => true
  | names l => bool_decide (name rel ∈ l)
  end.

(** The text [schemaDef] of one schema. *)
Definition schemaDefText (schema : string) (enums : EnumData) (tableDefs : list string)
  : string :=
  nl +:+ "/* === schema: " +:+ schema +:+ " === */" +:+ nl +:+
  nl +:+ "/* --- enums --- */" +:+ nl +:+
  enumTypesForEnumData enums +:+
  nl +:+ nl +:+ "/* --- tables --- */" +:+ nl +:+
  join nl (jsSort tableDefs).

(** The body of [Object.keys(schemas).map(async schema => ...)];
    [definitionForRelationInSchema] of its import list is
    [definitionForTableInSchema] of [tables.ts]. *)
Definition schemaDataFor (sched : Schedule) (config : CompleteConfig) (pool : Catalog)
    (schema : string) (rules : SchemaRules) : Async SchemaData :=
  tables ← match exclude rules with
           | star => mret []
           | names excluded =>
               rels ← relationsInSchema schema pool;
               mret (filter (λ rel, name rel ∉ excluded)
                       (filter (λ rel, isIncluded (include rules) rel = true) rels))
           end;
  enums ← enumDataForSchema schema pool;
  tableDefs ← promiseAll (tablePicks sched schema)
    (map (λ table, definitionForTableInSchema table schema enums config pool) tables);
  mret {| schemaDef := schemaDefText schema enums tableDefs; tables := tables |}.

(** [pool = new pg.Pool(db)] is the event [poolNew]; [customTypes = {}]
    empties the registry of the world. *)
Definition tsForConfig (sched : Schedule) (config : CompleteConfig) : Async Output :=
  emit poolNew;;
  let pool := db config in
  setCustomTypes ∅;;
  schemaData ← promiseAll (schemaPicks sched)
    (map (λ '(schema, rules), schemaDataFor sched config pool schema rules)
         (schemas config));
  let schemaDefs := jsSort (map schemaDef schemaData) in
  let schemaTables := map tables schemaData in
  let allTables :=
    jsSortBy (λ a b, (localeCompare (name a) (name b) <=? 0)%Z) (concat schemaTables) in
  customTypes ← getCustomTypes;
  let hasCustomTypes := bool_decide (customTypes ≠ ∅) in
  let ts :=
    header +:+ declareModule "zapatos/schema" (
      nl +:+ "import type * as db from 'zapatos/db';" +:+ nl +:+
      (if hasCustomTypes then "import type * as c from 'zapatos/custom';" +:+ nl else "") +:+
      versionCanary +:+
      join (nl +:+ nl) schemaDefs +:+
      nl +:+ nl +:+ "/* === cross-table types === */" +:+ nl +:+
      crossTableTypesForTables allTables) in
  let customTypeSourceFiles := sourceFilesForCustomTypes customTypes in
  emit poolEnd;;
  mret {| ts := ts; customTypeSourceFiles := customTypeSourceFiles |}.

End Generate.

(** ** Specification-level definitions *)

Section Specification.
Context `{Imports}.

Definition baseTypeKnown (row : ColumnRow) (enums : EnumData) : bool :=
  negb (bool_decide (tsTypeForPgType (udtName row) enums = "any")).

(** The classifier as the specification words it, by the four cases of
    (domain absent or present, base type known or unknown): the resolved
    type and the entry to register, if any. *)
Definition classification (row : ColumnRow) (enums : EnumData) (config : CompleteConfig)
  : string * option (string * string) :=
  let mapped := tsTypeForPgType (udtName row) enums in
  match domainName row, baseTypeKnown row enums with
  | None, true => (mapped, None)
  | None, false =>
      let key := transformCustomType (udtName row) config in
      ("c." +:+ key, Some (key, "any"))
  | Some domain, true =>
      let key := transformCustomType domain config in
      ("c." +:+ key, Some (key, mapped))
  | Some domain, false =>
      let key := transformCustomType domain config in
      ("c." +:+ key, Some (key, "any"))
  end.

Definition resolvedType (row : ColumnRow) (enums : EnumData) (config : CompleteConfig) : string :=
  (classification row enums config).1.

Definition registration (enums : EnumData) (config : CompleteConfig) (row : ColumnRow)
  : option (string * string) :=
  (classification row enums config).2.

(** Writing a list of registrations into the registry, in order, each
    with [customTypes[key] = type]. *)
Definition register (customTypes : CustomTypes) (entries : list (string * string))
  : CustomTypes :=
  foldl (λ m entry, setProperty entry.1 entry.2 m) customTypes entries.

(** The last entry registered under [key]. *)
Definition lastRegistered (key : string) (entries : list (string * string))
  : option string :=
  snd <$> last (filter (λ entry, entry.1 = key) entries).

(** The override of a column as the data model words it: the entry of
    the override table under the relation's name, or else the entry under
    the wildcard ["*"]. *)
Definition overrideFor (table : gmap string (gmap string ColumnOptions.t))
    (relName column : string) : option ColumnOptions.t :=
  match table !! relName ≫= (λ forRel, forRel !! column) with
  | Some o => Some o
  | None => table !! "*" ≫= (λ forAll, forAll !! column)
  end.

(** The role rules of the data model. *)
Definition inInsertShape (config : CompleteConfig) (rel : Relation) (row : ColumnRow) : Prop :=
  isGenerated row = false ∧
  insertOf (columnOptionsFor config (name rel) (column row)) ≠ Some insertExcluded.

Definition inUpdateShape (config : CompleteConfig) (rel : Relation) (row : ColumnRow) : Prop :=
  isGenerated row = false ∧
  updateOf (columnOptionsFor config (name rel) (column row)) ≠ Some updateExcluded.

Definition optionalOnInsert (config : CompleteConfig) (rel : Relation) (row : ColumnRow) : Prop :=
  isNullable row = true ∨ hasDefault row = true ∨
  insertOf (columnOptionsFor config (name rel) (column row)) = Some insertOptional.

Global Instance inInsertShape_dec config rel row : Decision (inInsertShape config rel row).
Proof. unfold inInsertShape. apply _. Defined.

Global Instance inUpdateShape_dec config rel row : Decision (inUpdateShape config rel row).
Proof. unfold inUpdateShape. apply _. Defined.

Global Instance optionalOnInsert_dec config rel row : Decision (optionalOnInsert config rel row).
Proof. unfold optionalOnInsert. apply _. Defined.

(** The field declarations of one column. *)
Definition selectableFor (enums : EnumData) (config : CompleteConfig) (row : ColumnRow) : string :=
  selectableDecl row (resolvedType row enums config).

Definition whereableFor (enums : EnumData) (config : CompleteConfig) (row : ColumnRow) : string :=
  whereableDecl row (tsTypeForPgType (udtName row) enums) (resolvedType row enums config).

Definition insertableFor (rel : Relation) (enums : EnumData) (config : CompleteConfig)
    (row : ColumnRow) : string :=
  insertableDecl row (columnOptionsFor config (name rel) (column row))
    (tsTypeForPgType (udtName row) enums) (resolvedType row enums config).

Definition updatableFor (enums : EnumData) (config : CompleteConfig) (row : ColumnRow) : string :=
  updatableDecl row (tsTypeForPgType (udtName row) enums) (resolvedType row enums config).

(** The four shapes of a relation, column by column in the order of the
    rows. *)
Definition shapesOf (rel : Relation) (enums : EnumData) (config : CompleteConfig)
    (rows : list ColumnRow) : Shapes :=
  {| selectables := map (selectableFor enums config) rows;
     whereables := map (whereableFor enums config) rows;
     insertables := map (insertableFor rel enums config)
                        (filter (inInsertShape config rel) rows);
     updatables := map (updatableFor enums config)
                       (filter (inUpdateShape config rel) rows) |}.

Definition appendShapes (a b : Shapes) : Shapes :=
  {| selectables := selectables a ++ selectables b;
     whereables := whereables a ++ whereables b;
     insertables := insertables a ++ insertables b;
     updatables := updatables a ++ updatables b |}.

(** *** What a task does, whatever the world it starts in

    [behaves m r keys]: [m] sends only queries to the pool; when [r] is
    [Some a] it resolves with [a] and adds exactly [keys] to the keys of
    the registry; when [r] is [None] it rejects. *)

Definition queriesOnly (w w' : World) : Prop :=
  ∃ qs, events w' = events w ++ map poolQuery qs.

Definition behaves {A} (m : Async A) (r : option A) (keys : gset string) : Prop :=
  ∀ w, ∃ o w', m w = (o, w') ∧ queriesOnly w w' ∧
    match r with
    | Some a => o = resolved a ∧ dom (registry w') = dom (registry w) ∪ keys
    | None => ∃ e, o = rejected e
    end.

(** All the values of [Promise.all] settled, [r] giving the value of the
    task at each index. *)
Definition settleAll {A} (r : nat → option A) (indices : list nat)
    (values : list (option A)) : list (option A) :=
  foldr (λ index vs, match r index with
                     | Some a => settle index a vs
                     | None => vs
                     end) values indices.

Definition answer {A} (a : QueryResult A) : option A :=
  match a with
  | rows r => Some r
  | queryError _ => None
  end.

(** The block of one relation, computed from the answers of the catalog. *)
Definition tableDefOf (config : CompleteConfig) (pool : Catalog) (schema : string)
    (enums : EnumData) (rel : Relation) : option string :=
  cols ← answer (columnRows pool rel schema);
  uniqueIndexes ← answer (uniqueIndexRows pool (name rel));
  Some (tableDefText rel (shapesOf rel enums config cols) uniqueIndexes).

Definition tableKeysOf (config : CompleteConfig) (pool : Catalog) (schema : string)
    (enums : EnumData) (rel : Relation) : gset string :=
  match columnRows pool rel schema with
  | rows cols =>
      list_to_set (filter (λ key, key ≠ "__proto__")
                          (omap (registration enums config) cols).*1)
  | queryError _ => ∅
  end.

Definition tablesOf (pool : Catalog) (schema : string) (rules : SchemaRules)
  : option (list Relation) :=
  match exclude rules with
  | star => Some []
  | names excluded =>
      rels ← answer (relationRows pool schema);
      Some (filter (λ rel, name rel ∉ excluded)
              (filter (λ rel, isIncluded (include rules) rel = true) rels))
  end.

Definition schemaDataOf (config : CompleteConfig) (pool : Catalog)
    (entry : string * SchemaRules) : option SchemaData :=
  tables ← tablesOf pool entry.1 entry.2;
  enums ← answer (enumRows pool entry.1);
  tableDefs ← mapM (tableDefOf config pool entry.1 enums) tables;
  Some {| schemaDef := schemaDefText entry.1 enums tableDefs; tables := tables |}.

Definition schemaKeysOf (config : CompleteConfig) (pool : Catalog)
    (entry : string * SchemaRules) : gset string :=
  match tablesOf pool entry.1 entry.2, enumRows pool entry.1 with
  | Some tables, rows enums => ⋃ (map (tableKeysOf config pool entry.1 enums) tables)
  | _, _ => ∅
  end.

End Specification.


(** Case-insensitive order of names, as [ORDER BY lower(name)] gives it. *)
Definition toLowerCase (c : ascii) : ascii :=
  if inRange 65 90 c then ascii_of_nat (nat_of_ascii c + 32) else c.

Fixpoint lower (s : string) : string :=
  match s with
  | EmptyString => ""
  | String c s' => String (toLowerCase c) (lower s')
  end.

Definition caseInsensitiveLe (a b : string) : Prop := String.le (lower a) (lower b).

(** ** Sample inputs *)

Module Sample.

(** The members of [Object.prototype]. *)
Definition objectPrototypeMembers : list string :=
  ["constructor"; "hasOwnProperty"; "isPrototypeOf"; "propertyIsEnumerable";
   "toLocaleString"; "toString"; "valueOf"; "__proto__";
   "__defineGetter__"; "__defineSetter__"; "__lookupGetter__"; "__lookupSetter__"].

(** The members of a built-in function, own or inherited (the accessors
    [caller] and [arguments], which throw, are left out). *)
Definition functionMembers : list string :=
  ["name"; "length"; "apply"; "bind"; "call"] ++ objectPrototypeMembers.

(** The own members of the function [Object]. *)
Definition objectStatics : list string :=
  ["prototype"; "assign"; "create"; "defineProperties"; "defineProperty"; "entries";
   "freeze"; "fromEntries"; "getOwnPropertyDescriptor"; "getOwnPropertyDescriptors";
   "getOwnPropertyNames"; "getOwnPropertySymbols"; "getPrototypeOf"; "is";
   "isExtensible"; "isFrozen"; "isSealed"; "keys"; "preventExtensions"; "seal";
   "setPrototypeOf"; "values"].

(** A fragment of the base-type mapping of [pgTypes.ts], and the members
    plain objects inherit: [obj.__proto__] is [Object.prototype], whose
    own [__proto__] is null; the other members are functions. *)
Definition imports : Imports := {|
  tsTypeForPgType := λ pgType enums,
    if bool_decide (pgType = "int4") then "number"
    else if bool_decide (pgType = "text") then "string"
    else if bool_decide (pgType = "timestamptz") then "Date"
    else if bool_decide (pgType = "jsonb") then "db.JSONValue"
    else if bool_decide (pgType ∈ enums.*1) then pgType
    else "any";
  enumTypesForEnumData := λ enums,
    join "" (map (λ entry, "export type " +:+ entry.1 +:+ " = " +:+
                           join " | " (map (λ v, "'" +:+ v +:+ "'") entry.2) +:+ ";" +:+ nl)
                 enums);
  header := "/* generated */" +:+ nl;
  localeCompare := λ a b,
    match String.compare (lower a) (lower b) with
    | Lt => (-1)%Z
    | Eq => 0%Z
    | Gt => 1%Z
    end;
  inheritedMember := λ key, bool_decide (key ∈ objectPrototypeMembers);
  memberOfInherited := λ key k,
    if bool_decide (key = "__proto__")
    then bool_decide (k ∈ objectPrototypeMembers) && negb (bool_decide (k = "__proto__"))
    else bool_decide (k ∈ functionMembers) ||
         (bool_decide (key = "constructor") && bool_decide (k ∈ objectStatics))
|}.

Definition apple : Relation := {| name := "apple"; type := table |}.
Definition Zebra : Relation := {| name := "Zebra"; type := table |}.
Definition stats : Relation := {| name := "stats"; type := mview |}.
Definition orders : Relation := {| name := "orders"; type := table |}.
Definition documents : Relation := {| name := "documents"; type := table |}.

Definition id : ColumnRow :=
  {| column := "id"; isGenerated := true; isNullable := false; hasDefault := false;
     udtName := "int4"; domainName := None |}.

Definition email : ColumnRow :=
  {| column := "email"; isGenerated := false; isNullable := true; hasDefault := false;
     udtName := "text"; domainName := None |}.

Definition settings : ColumnRow :=
  {| column := "settings"; isGenerated := false; isNullable := false; hasDefault := true;
     udtName := "jsonb"; domainName := Some "validated_json" |}.

Definition location : ColumnRow :=
  {| column := "location"; isGenerated := false; isNullable := false; hasDefault := false;
     udtName := "geometry"; domainName := None |}.

(** A column over a domain of the name [settings] uses, with another
    base type (a domain of another schema). *)
Definition notes : ColumnRow :=
  {| column := "notes"; isGenerated := false; isNullable := true; hasDefault := false;
     udtName := "text"; domainName := Some "validated_json" |}.

(** Two columns over domains of the same name and different base types. *)
Definition price : ColumnRow :=
  {| column := "price"; isGenerated := false; isNullable := false; hasDefault := false;
     udtName := "int4"; domainName := Some "amount" |}.

Definition label : ColumnRow :=
  {| column := "label"; isGenerated := false; isNullable := false; hasDefault := false;
     udtName := "text"; domainName := Some "amount" |}.

(** A column of a materialized view, as the column query reports it:
    generated, with the truthy ['f'] for [hasDefault], and no domain. *)
Definition total : ColumnRow :=
  {| column := "total"; isGenerated := true; isNullable := true; hasDefault := true;
     udtName := "integer"; domainName := None |}.

(** A column over a domain named [__proto__]. *)
Definition payload : ColumnRow :=
  {| column := "payload"; isGenerated := false; isNullable := false; hasDefault := false;
     udtName := "jsonb"; domainName := Some "__proto__" |}.

(** A column named as a member every object inherits. *)
Definition constructorColumn : ColumnRow :=
  {| column := "constructor"; isGenerated := false; isNullable := false;
     hasDefault := false; udtName := "text"; domainName := None |}.

Definition columnsOf (rel : Relation) : list ColumnRow :=
  if bool_decide (name rel = "apple") then [id; email; settings]
  else if bool_decide (name rel = "Zebra") then [id; location; notes]
  else if bool_decide (name rel = "orders") then [id; price; label]
  else if bool_decide (name rel = "documents") then [id; payload]
  else [total].

Definition uniqueIndexesOf (relName : string) : list string :=
  if bool_decide (relName = "apple") then ["idx_a"; "idx_b"] else [].

(** The catalog lists relations in the order of [lower(name)]. *)
Definition catalog : Catalog := {|
  relationRows := λ _, rows [apple; documents; orders; stats; Zebra];
  columnRows := λ rel _, rows (columnsOf rel);
  uniqueIndexRows := λ relName, rows (uniqueIndexesOf relName);
  enumRows := λ _, rows []
|}.

(** A database whose relation listing fails. *)
Definition unreachable : Catalog := {|
  relationRows := λ _, queryError "connection refused";
  columnRows := λ rel _, rows (columnsOf rel);
  uniqueIndexRows := λ relName, rows (uniqueIndexesOf relName);
  enumRows := λ _, rows []
|}.

Definition rules : SchemaRules :=
  {| include := names ["apple"; "Zebra"; "stats"]; exclude := names ["stats"] |}.

Definition excludeAll : SchemaRules := {| include := star; exclude := star |}.

(** [email] is excluded from updates of [apple]; everywhere else [email]
    may be omitted on insert and [id] is optional on insert. *)
Definition overrides : gmap string (gmap string ColumnOptions.t) :=
  {[ "apple" := {[ "email" := {| ColumnOptions.insert := None;
                                 ColumnOptions.update := Some updateExcluded |} ]};
     "*" := {[ "email" := {| ColumnOptions.insert := Some insertExcluded;
                             ColumnOptions.update := None |};
               "id" := {| ColumnOptions.insert := Some insertOptional;
                          ColumnOptions.update := None |} ]} ]}.

Definition config : CompleteConfig :=
  {| db := catalog; schemas := [("public", rules); ("audit", excludeAll)];
     columnOptions := overrides; customTypesTransform := PgMy_type |}.

Definition failing : CompleteConfig :=
  {| db := unreachable; schemas := [("public", rules)];
     columnOptions := ∅; customTypesTransform := my_type |}.

(** [orders] has overrides of its own, none for a column [constructor];
    the wildcard entry excludes that column from insert and update. *)
Definition ordersOverrides : gmap string (gmap string ColumnOptions.t) :=
  {[ "orders" := {[ "price" := {| ColumnOptions.insert := Some insertOptional;
                                  ColumnOptions.update := None |} ]};
     "*" := {[ "constructor" := {| ColumnOptions.insert := Some insertExcluded;
                                   ColumnOptions.update := Some updateExcluded |} ]} ]}.

Definition ordersConfig : CompleteConfig :=
  {| db := catalog; schemas := [("public", rules)];
     columnOptions := ordersOverrides; customTypesTransform := my_type |}.

(** The table [documents] alone, with no override, and custom types
    named as the catalog names them. *)
Definition documentsConfig : CompleteConfig :=
  {| db := catalog;
     schemas := [("public", {| include := names ["documents"]; exclude := names [] |})];
     columnOptions := ∅; customTypesTransform := my_type |}.

Definition blockOf (rel : Relation) : string :=
  tableDefText rel (@shapesOf imports rel [] config (columnsOf rel))
    (uniqueIndexesOf (name rel)).

(** What the run over schema [public] resolves with. *)
Definition publicData : SchemaData :=
  {| schemaDef :=
       nl +:+ "/* === schema: public === */" +:+ nl +:+
       nl +:+ "/* --- enums --- */" +:+ nl +:+
       nl +:+ nl +:+ "/* --- tables --- */" +:+ nl +:+
       join nl [blockOf Zebra; blockOf apple];
     tables := [apple; Zebra] |}.

Definition inOrder : Schedule := {| schemaPicks := []; tablePicks := λ _, [] |}.
Definition lastFirst : Schedule := {| schemaPicks := [1]; tablePicks := λ _, [1; 0] |}.

Definition start : World := {| registry := ∅; events := [] |}.

End Sample.

(** ** Further specification-level definitions *)

(** Every code unit of [s] satisfies [p]. *)
Fixpoint allChars (p : ascii → bool) (s : string) : bool :=
  match s with
  | EmptyString => true
  | String c s' => p c && allChars p s'
  end.

Definition notWordChar (c : ascii) : bool := negb (isWordChar c).

Definition notLineTerminator (c : ascii) : bool := negb (isLineTerminator c).

(** One line of the declarations of a module, as [declareModule] leaves
    it: with two spaces in front when the first character after its
    leading spaces and tabs is not white space, unchanged otherwise. *)
Definition indentLine (line : string) : string :=
  if lineHasContent line then "  " +:+ line else line.

(** The error the catalog answers a query with, if it rejects it. *)
Definition failure {A} (a : QueryResult A) : option string :=
  match a with
  | rows _ => None
  | queryError e => Some e
  end.

Definition errorOf (pool : Catalog) (q : Query) : option string :=
  match q with
  | relationsQuery schemaName => failure (relationRows pool schemaName)
  | columnsQuery rel schemaName => failure (columnRows pool rel schemaName)
  | uniqueIndexesQuery relName => failure (uniqueIndexRows pool relName)
  | enumsQuery schemaName => failure (enumRows pool schemaName)
  end.

(** [asks pool P V m]: all [m] does to the pool is to send it queries
    satisfying [P]; when [m] resolves, its value satisfies [V] and the
    catalog has answered every query sent; when [m] rejects, it rejects
    with the error of a query it has sent. *)
Definition asks {A} (pool : Catalog) (P : Query → Prop) (V : A → Prop)
    (m : Async A) : Prop :=
  ∀ w, ∃ qs,
    events (m w).2 = events w ++ map poolQuery qs ∧
    Forall P qs ∧
    match (m w).1 with
    | resolved a => V a ∧ Forall (λ q, errorOf pool q = None) qs
    | rejected e => Exists (λ q, errorOf pool q = Some e) qs
    end.

(** The queries about one schema of the configuration: its relation
    listing, unless the schema is excluded as a whole; its enum listing;
    the columns and the unique indexes of a relation the rules keep. *)
Definition queryAbout (pool : Catalog) (schema : string) (rules : SchemaRules)
    (q : Query) : Prop :=
  (q = relationsQuery schema ∧ exclude rules ≠ star) ∨
  q = enumsQuery schema ∨
  ∃ tables rel,
    tablesOf pool schema rules = Some tables ∧ rel ∈ tables ∧
    (q = columnsQuery rel schema ∨ q = uniqueIndexesQuery (name rel)).

(** The world after one more event. *)
Definition logged (w : World) (evs : list Event) : World :=
  {| registry := registry w; events := events w ++ evs |}.

(** What the run on the sample configuration resolves with. *)
Definition sampleOutput : Output :=
  match (@tsForConfig Sample.imports Sample.inOrder Sample.config Sample.start).1 with
  | resolved o => o
  | rejected _ => {| ts := ""; customTypeSourceFiles := ∅ |}
  end.

(** ** Facts about asynchronous code *)

Section AsyncFacts.
Context {A B : Type}.
Implicit Types (w : World) (keys : gset string).

Lemma queriesOnly_refl w : queriesOnly w w.
Proof. exists []. simpl. by rewrite app_nil_r. Qed.

Lemma queriesOnly_trans w1 w2 w3 :
  queriesOnly w1 w2 → queriesOnly w2 w3 → queriesOnly w1 w3.
Proof.
  intros [qs1 H1] [qs2 H2]. exists (qs1 ++ qs2).
  by rewrite H2, H1, map_app, <- (assoc_L (++)).
Qed.

Lemma bind_resolved (m : Async A) (f : A → Async B) w a w' :
  m w = (resolved a, w') → (m ≫= f) w = f a w'.
Proof. intros Hm. unfold mbind, Async_bind. by rewrite Hm. Qed.

Lemma bind_rejected (m : Async A) (f : A → Async B) w e w' :
  m w = (rejected e, w') → (m ≫= f) w = (rejected e, w').
Proof. intros Hm. unfold mbind, Async_bind. by rewrite Hm. Qed.

Lemma behaves_ret (a : A) : behaves (mret a) (Some a) ∅.
Proof.
  intros w. exists (resolved a), w. split; [done|].
  split; [apply queriesOnly_refl|]. split; [done|]. set_solver.
Qed.

Lemma behaves_bind_Some (m : Async A) (f : A → Async B) a keys r' keys' :
  behaves m (Some a) keys → behaves (f a) r' keys' →
  behaves (m ≫= f) r' (keys ∪ keys').
Proof.
  intros Hm Hf w.
  destruct (Hm w) as (o & w1 & Hrun & Hq1 & -> & Hdom1).
  destruct (Hf w1) as (o2 & w2 & Hrun2 & Hq2 & Hr).
  exists o2, w2. split; [by rewrite (bind_resolved _ _ _ _ _ Hrun)|].
  split; [by eapply queriesOnly_trans|].
  destruct r' as [b|]; [|done].
  destruct Hr as [-> Hdom2]. split; [done|].
  rewrite Hdom2, Hdom1. set_solver.
Qed.

Lemma behaves_bind_None (m : Async A) (f : A → Async B) keys :
  behaves m None keys → behaves (m ≫= f) None keys.
Proof.
  intros Hm w.
  destruct (Hm w) as (o & w1 & Hrun & Hq1 & e & ->).
  exists (rejected e), w1. split; [by rewrite (bind_rejected _ _ _ _ _ Hrun)|].
  split; [done|]. by exists e.
Qed.

Lemma behaves_query (q : Query) (a : QueryResult A) :
  behaves (query q a) (answer a) ∅.
Proof.
  intros w. unfold query.
  destruct a as [r|e]; simpl; eexists _, _; (split; [reflexivity|]).
  - split; [by exists [q]|]. split; [done|]. simpl. set_solver.
  - split; [by exists [q]|]. by exists e.
Qed.

End AsyncFacts.

Section PromiseAllFacts.
Context {A : Type}.
Implicit Types (values : list (option A)) (r : nat → option A).

Lemma settle_settleAll r indices : ∀ values i a,
  i ∉ indices →
  settleAll r indices (settle i a values) = settle i a (settleAll r indices values).
Proof.
  induction indices as [|j indices IH]; intros values i a Hi; [done|].
  apply not_elem_of_cons in Hi as [Hij Hi]. simpl.
  rewrite IH by done. destruct (r j) as [b|]; [|done].
  unfold settle. by rewrite list_insert_insert_ne.
Qed.

(** Settling the picked task first does not change the settled values. *)
Lemma settleAll_delete r : ∀ indices k i a values,
  NoDup indices → indices !! k = Some i → r i = Some a →
  settleAll r (delete k indices) (settle i a values) = settleAll r indices values.
Proof.
  induction indices as [|j indices IH]; intros k i a values Hnd Hk Hr; [done|].
  apply NoDup_cons in Hnd as [Hj Hnd].
  destruct k as [|k]; simpl in *.
  - simplify_eq. rewrite Hr. by apply settle_settleAll.
  - by rewrite (IH k i a).
Qed.

Lemma settleAll_seq r : ∀ (results : list A) j pre,
  length pre = j →
  (∀ i a, results !! i = Some a → r (j + i)%nat = Some a) →
  settleAll r (seq j (length results)) (pre ++ replicate (length results) None) =
  pre ++ (Some <$> results).
Proof.
  induction results as [|a results IH]; intros j pre Hlen Hr; [done|].
  simpl. rewrite <- (Nat.add_0_r j) at 1. rewrite (Hr 0%nat a) by done.
  rewrite (cons_middle None), (assoc_L (++)), (IH (S j) (pre ++ [None])).
  - unfold settle. rewrite <- (assoc_L (++)). simpl.
    rewrite insert_app_r_alt by lia. by rewrite Hlen, Nat.sub_diag.
  - rewrite length_app. simpl. lia.
  - intros i b Hi. replace (S j + i)%nat with (j + S i)%nat by lia. by apply Hr.
Qed.

Lemma omap_id_Some (results : list A) : omap id (Some <$> results) = results.
Proof. induction results as [|a results IH]; [done|]. simpl. f_equal. exact IH. Qed.

Lemma union_list_delete (Xs : list (gset string)) k X :
  Xs !! k = Some X → X ∪ ⋃ (delete k Xs) = ⋃ Xs.
Proof.
  revert k. induction Xs as [|Y Xs IH]; intros [|k] Hk; simplify_eq/=; [done|].
  rewrite <- (IH k Hk). set_solver.
Qed.

(** [Promise.all], whichever task is picked at each step. *)
Lemma promiseAllFrom_behaves r (keys : nat → gset string) :
  ∀ steps picks (pending : list (nat * Async A)) values,
  steps = length pending →
  NoDup pending.*1 →
  Forall (λ p, behaves p.2 (r p.1) (keys p.1)) pending →
  ∀ w, ∃ o w', promiseAllFrom picks pending steps values w = (o, w') ∧
    queriesOnly w w' ∧
    if decide (Forall (λ i, is_Some (r i)) pending.*1)
    then o = resolved (omap id (settleAll r pending.*1 values)) ∧
         dom (registry w') = dom (registry w) ∪ ⋃ (keys <$> pending.*1)
    else ∃ e, o = rejected e.
Proof.
  induction steps as [|steps IH]; intros picks pending values Hlen Hnd Hall w.
  - destruct pending; [|done]. simpl.
    exists (resolved (omap id values)), w. split; [done|].
    split; [apply queriesOnly_refl|].
    split; [done|]. set_solver.
  - simpl. set (k := (hd 0%nat picks `mod` length pending)%nat).
    assert (k < length pending)%nat as Hk
      by (apply Nat.mod_upper_bound; rewrite <- Hlen; lia).
    destruct (lookup_lt_is_Some_2 _ _ Hk) as [[i task] Hlook]. rewrite Hlook.
    assert (pending.*1 !! k = Some i) as Hlooki
      by (by rewrite list_lookup_fmap, Hlook).
    pose proof (proj1 (Forall_lookup _ _) Hall k _ Hlook) as Htask. simpl in Htask.
    destruct (Htask w) as (o1 & w1 & Hrun & Hq1 & Hr).
    destruct (r i) as [a|] eqn:Hri.
    + destruct Hr as [-> Hdom1].
      rewrite (bind_resolved _ _ _ _ _ Hrun).
      destruct (IH (tl picks) (delete k pending) (settle i a values))
        with (w := w1) as (o & w' & Hrun' & Hq' & Hres).
      * rewrite length_delete by (by eexists). lia.
      * rewrite list_fmap_delete. apply (sublist_NoDup _ pending.*1); [done|apply sublist_delete].
      * by apply Forall_delete.
      * exists o, w'. split; [done|]. split; [by eapply queriesOnly_trans|].
        rewrite list_fmap_delete in Hres.
        assert (Forall (λ i, is_Some (r i)) (delete k pending.*1) ↔
                Forall (λ i, is_Some (r i)) pending.*1) as Hiff.
        { rewrite (delete_Permutation _ _ _ Hlooki) at 2.
          rewrite Forall_cons, Hri. naive_solver. }
        destruct (decide (Forall _ (delete k pending.*1))) as [Hok|Hko].
        -- rewrite decide_True by (by apply Hiff).
           destruct Hres as [-> Hdom']. split.
           ++ by rewrite (settleAll_delete r _ k i a).
           ++ rewrite Hdom', Hdom1, <- (union_list_delete (keys <$> pending.*1) k (keys i)).
              ** rewrite list_fmap_delete. set_solver.
              ** by rewrite list_lookup_fmap, Hlooki.
        -- rewrite decide_False by (by rewrite <- Hiff). done.
    + destruct Hr as [e ->].
      rewrite (bind_rejected _ _ _ _ _ Hrun).
      exists (rejected e), w1. split; [done|]. split; [done|].
      rewrite decide_False; [by exists e|].
      intros Hok. apply (proj1 (Forall_lookup _ _) Hok) in Hlooki.
      rewrite Hri in Hlooki. by destruct Hlooki.
Qed.

Lemma promiseAll_behaves {X} picks (xs : list X) (f : X → Async A)
    (g : X → option A) (h : X → gset string) :
  (∀ x, x ∈ xs → behaves (f x) (g x) (h x)) →
  behaves (promiseAll picks (map f xs)) (mapM g xs) (⋃ (map h xs)).
Proof.
  intros Hxs w. unfold promiseAll.
  set (r := λ i, xs !! i ≫= g).
  set (keys := λ i, from_option h ∅ (xs !! i)).
  assert ((imap pair (map f xs)).*1 = seq 0 (length xs)) as Hidx.
  { apply list_eq. intros i.
    rewrite list_lookup_fmap, list_lookup_imap, list_lookup_fmap.
    destruct (xs !! i) as [x|] eqn:Hx; simpl; symmetry.
    - apply lookup_seq. split; [done|]. by eapply lookup_lt_Some.
    - apply lookup_seq_ge. by apply lookup_ge_None. }
  destruct (promiseAllFrom_behaves r keys (length (map f xs)) picks
              (imap pair (map f xs)) (replicate (length (map f xs)) None))
    with (w := w) as (o & w' & Hrun & Hq & Hres).
  - by rewrite length_imap.
  - rewrite Hidx. apply NoDup_seq.
  - apply Forall_lookup. intros i [j task] Hi.
    apply list_lookup_imap_Some in Hi as (task' & Htask & [= -> ->]).
    rewrite list_lookup_fmap in Htask.
    destruct (xs !! i) as [x|] eqn:Hx; simplify_eq/=.
    unfold r, keys. rewrite Hx. simpl. apply Hxs. by eapply list_elem_of_lookup_2.
  - exists o, w'. split; [done|]. split; [done|].
    rewrite Hidx in Hres. rewrite length_map in Hres.
    destruct (mapM g xs) as [results|] eqn:HmapM.
    + pose proof (mapM_Some_1 _ _ _ HmapM) as Hf2.
      pose proof (Forall2_length _ _ _ Hf2) as Hlen.
      assert (∀ i a, results !! i = Some a → r i = Some a) as Hr.
      { intros i a Hi. unfold r.
        destruct (Forall2_lookup_r _ _ _ _ _ Hf2 Hi) as (x & Hx & Hgx).
        by rewrite Hx. }
      rewrite decide_True in Hres.
      * destruct Hres as [-> Hdom]. split.
        -- f_equal. rewrite Hlen.
           pose proof (settleAll_seq r results 0%nat [] eq_refl Hr) as Hsettled.
           simpl in Hsettled. rewrite Hsettled.
           apply omap_id_Some.
        -- rewrite Hdom. f_equal. f_equal.
           apply list_eq. intros i. rewrite !list_lookup_fmap.
           destruct (decide (i < length xs)%nat) as [Hlt|Hge].
           ++ rewrite (lookup_seq_lt _ _ _ Hlt). simpl. unfold keys.
              destruct (lookup_lt_is_Some_2 _ _ Hlt) as [x Hx]. by rewrite Hx.
           ++ rewrite lookup_seq_ge by lia. by rewrite lookup_ge_None_2 by lia.
      * apply Forall_lookup. intros i j Hi.
        apply lookup_seq in Hi as [-> Hlt]. simpl.
        rewrite Hlen in Hlt. destruct (lookup_lt_is_Some_2 _ _ Hlt) as [a Ha].
        rewrite (Hr _ _ Ha). by eexists.
    + rewrite decide_False in Hres; [done|].
      intros Hok. apply mapM_None_1, Exists_exists in HmapM as (x & Hx & Hgx).
      apply list_elem_of_lookup_1 in Hx as [i Hi].
      assert (seq 0 (length xs) !! i = Some i) as Hseq
        by (apply lookup_seq; split; [done|by eapply lookup_lt_Some]).
      apply (proj1 (Forall_lookup _ _) Hok) in Hseq.
      unfold r in Hseq. rewrite Hi in Hseq. simpl in Hseq. rewrite Hgx in Hseq.
      by destruct Hseq.
Qed.

End PromiseAllFacts.

(** ** Facts about the log of the pool *)

Section LogFacts.
Context (pool : Catalog) (P : Query → Prop).

Lemma asks_ret {A} (V : A → Prop) (a : A) : V a → asks pool P V (mret a).
Proof. intros Ha w. exists []. simpl. by rewrite app_nil_r. Qed.

Lemma asks_getCustomTypes : asks pool P (λ _, True) getCustomTypes.
Proof. intros w. exists []. simpl. by rewrite app_nil_r. Qed.

Lemma asks_setCustomTypes customTypes :
  asks pool P (λ _, True) (setCustomTypes customTypes).
Proof. intros w. exists []. simpl. by rewrite app_nil_r. Qed.

Lemma asks_query {A} (q : Query) (a : QueryResult A) :
  P q → errorOf pool q = failure a →
  asks pool P (λ r, a = rows r) (query q a).
Proof.
  intros Hq Herr w. exists [q]. unfold query.
  destruct a as [r|e]; simpl in *; (split; [done|]); (split; [by constructor|]).
  - split; [done|]. by constructor.
  - by constructor.
Qed.

Lemma asks_bind {A B} (V : A → Prop) (V' : B → Prop) (m : Async A) (f : A → Async B) :
  asks pool P V m → (∀ a, V a → asks pool P V' (f a)) → asks pool P V' (m ≫= f).
Proof.
  intros Hm Hf w. destruct (Hm w) as (qs1 & Hev1 & HP1 & Hout1).
  unfold mbind, Async_bind. destruct (m w) as [[a|e] w1]; simpl in *.
  - destruct Hout1 as [Ha Hout1].
    destruct (Hf a Ha w1) as (qs2 & Hev2 & HP2 & Hout2).
    exists (qs1 ++ qs2). rewrite Hev2, Hev1, map_app, (assoc_L (++)).
    split; [done|]. split; [by apply Forall_app|].
    destruct ((f a w1).1) as [b|e].
    + destruct Hout2 as [Hb Hout2]. split; [done|]. by apply Forall_app.
    + apply Exists_app. by right.
  - by exists qs1.
Qed.

Lemma asks_weaken {A} (Q : Query → Prop) (V V' : A → Prop) (m : Async A) :
  (∀ q, Q q → P q) → (∀ a, V a → V' a) → asks pool Q V m → asks pool P V' m.
Proof.
  intros HQP HV Hm w. destruct (Hm w) as (qs & Hev & HQ & Hout).
  exists qs. split; [done|]. split; [by eapply Forall_impl|].
  destruct ((m w).1); [|done]. destruct Hout. by split; [apply HV|].
Qed.

Lemma asks_promiseAllFrom {A} :
  ∀ steps picks (pending : list (nat * Async A)) values,
  Forall (λ p, asks pool P (λ _, True) p.2) pending →
  asks pool P (λ _, True) (promiseAllFrom picks pending steps values).
Proof.
  induction steps as [|steps IH]; intros picks pending values Hall;
    [by apply asks_ret|].
  simpl.
  destruct (pending !! _) as [[index task]|] eqn:Hlook; [|by apply asks_ret].
  eapply asks_bind.
  - apply (proj1 (Forall_lookup _ _) Hall _ _ Hlook).
  - intros a _. apply IH. by apply Forall_delete.
Qed.

Lemma asks_promiseAll {A} picks (tasks : list (Async A)) :
  Forall (asks pool P (λ _, True)) tasks →
  asks pool P (λ _, True) (promiseAll picks tasks).
Proof.
  intros Hall. apply asks_promiseAllFrom.
  apply Forall_lookup. intros i [j task] Hi.
  apply list_lookup_imap_Some in Hi as (task' & Htask & [= -> ->]).
  simpl. by eapply (proj1 (Forall_lookup _ _) Hall).
Qed.

End LogFacts.

(** ** Facts about sorting *)

Section SortFacts.
Context {A : Type} (le : A → A → bool).

Lemma jsInsert_Permutation x l : jsInsert le x l ≡ₚ x :: l.
Proof.
  induction l as [|y l IH]; simpl; [done|].
  destruct (le x y); [done|]. rewrite IH. apply Permutation_swap.
Qed.

Lemma jsSortBy_Permutation l : jsSortBy le l ≡ₚ l.
Proof.
  induction l as [|x l IH]; simpl; [done|].
  unfold jsSortBy in *. simpl. by rewrite jsInsert_Permutation, IH.
Qed.

Hypothesis le_total : ∀ a b, le a b = true ∨ le b a = true.

Lemma jsInsert_HdRel x y l :
  le y x = true → HdRel (λ a b, le a b = true) y l →
  HdRel (λ a b, le a b = true) y (jsInsert le x l).
Proof.
  intros Hyx Hhd. destruct l as [|z l]; simpl; [by constructor|].
  destruct (le x z); constructor; [done|]. by inversion Hhd.
Qed.

Lemma jsInsert_Sorted x l :
  Sorted (λ a b, le a b = true) l → Sorted (λ a b, le a b = true) (jsInsert le x l).
Proof.
  induction 1 as [|y l Hsorted IH Hhd]; simpl; [by repeat constructor|].
  destruct (le x y) eqn:Hxy.
  - constructor; [by constructor|by constructor].
  - constructor; [done|]. apply jsInsert_HdRel; [|done].
    destruct (le_total x y); congruence.
Qed.

Lemma jsSortBy_Sorted l : Sorted (λ a b, le a b = true) (jsSortBy le l).
Proof.
  induction l as [|x l IH]; [constructor|].
  unfold jsSortBy in *. simpl. by apply jsInsert_Sorted.
Qed.

End SortFacts.

Lemma Sorted_weaken {A} (R R' : relation A) l :
  (∀ a b, R a b → R' a b) → Sorted R l → Sorted R' l.
Proof.
  intros HR. induction 1 as [|x l Hsorted IH Hhd]; constructor; [done|].
  destruct Hhd; constructor; auto.
Qed.

(** [arr.sort()] leaves the strings in ascending order of code units. *)
Lemma jsSort_Sorted arr : Sorted String.le (jsSort arr).
Proof.
  unfold jsSort.
  eapply Sorted_weaken; [|apply jsSortBy_Sorted].
  - intros a b Hab. unfold String.le. by rewrite Hab.
  - intros a b. destruct (total String.le a b) as [Hle|Hle];
      unfold String.le in Hle; [left|right]; by destruct (String.leb _ _).
Qed.

Lemma jsSort_Permutation arr : jsSort arr ≡ₚ arr.
Proof. apply jsSortBy_Permutation. Qed.

Lemma string_app_assoc (a b c : string) : (a +:+ b) +:+ c = a +:+ (b +:+ c).
Proof.
  induction a as [|x a IH]; [done|].
  change (String x ((a +:+ b) +:+ c) = String x (a +:+ (b +:+ c))).
  by rewrite IH.
Qed.

(** ** Properties *)

Section Properties.
Context `{Imports}.

Lemma resolveType_classification row enums config (customTypes : CustomTypes) :
  resolveType row enums config customTypes =
  ((classification row enums config).1,
   register customTypes (option_list (classification row enums config).2)).
Proof.
  unfold resolveType, classification, baseTypeKnown, register.
  destruct (domainName row) as [domain|]; simpl;
    case_bool_decide as Hany; simpl; try reflexivity.
  - by rewrite Hany.
  - by rewrite Hany.
Qed.

Lemma isInsertable_true config rel row :
  isInsertable row (columnOptionsFor config (name rel) (column row)) = true ↔
  inInsertShape config rel row.
Proof.
  unfold isInsertable, inInsertShape.
  rewrite andb_true_iff, !negb_true_iff, bool_decide_eq_false. done.
Qed.

Lemma isUpdatable_true config rel row :
  isUpdatable row (columnOptionsFor config (name rel) (column row)) = true ↔
  inUpdateShape config rel row.
Proof.
  unfold isUpdatable, inUpdateShape.
  rewrite andb_true_iff, !negb_true_iff, bool_decide_eq_false. done.
Qed.

Lemma appendShapes_assoc a b c :
  appendShapes (appendShapes a b) c = appendShapes a (appendShapes b c).
Proof. unfold appendShapes; simpl. by rewrite <- !(assoc_L (++)). Qed.

Lemma appendShapes_noShapes sh : appendShapes noShapes sh = sh.
Proof. by destruct sh. Qed.

Lemma shapesOf_cons rel enums config row rows :
  shapesOf rel enums config (row :: rows) =
  appendShapes (shapesOf rel enums config [row]) (shapesOf rel enums config rows).
Proof.
  unfold shapesOf, appendShapes; simpl.
  rewrite !filter_cons, !filter_nil.
  f_equal; repeat case_decide; reflexivity.
Qed.

Lemma forEachRow_step rel enums config sh (customTypes : CustomTypes) row :
  forEachRow rel enums config (sh, customTypes) row =
  (appendShapes sh (shapesOf rel enums config [row]),
   register customTypes (option_list (registration enums config row))).
Proof.
  unfold forEachRow. rewrite resolveType_classification.
  unfold registration, shapesOf, appendShapes; simpl.
  rewrite !filter_cons, !filter_nil.
  f_equal. f_equal.
  - destruct (isInsertable _ _) eqn:Hins.
    + apply isInsertable_true in Hins. by rewrite decide_True.
    + rewrite decide_False; [done|].
      intros Hin. apply isInsertable_true in Hin. congruence.
  - destruct (isUpdatable _ _) eqn:Hupd.
    + apply isUpdatable_true in Hupd. by rewrite decide_True.
    + rewrite decide_False; [done|].
      intros Hin. apply isUpdatable_true in Hin. congruence.
Qed.

(** The loop over the rows of a relation: shapes in the order of the
    rows, registrations written in the order of the rows. *)
Lemma forEachRow_fold rel enums config rows : ∀ sh (customTypes : CustomTypes),
  foldl (forEachRow rel enums config) (sh, customTypes) rows =
  (appendShapes sh (shapesOf rel enums config rows),
   register customTypes (omap (registration enums config) rows)).
Proof.
  induction rows as [|row rows IH]; intros sh customTypes.
  - simpl. by destruct sh; unfold appendShapes; simpl; rewrite !app_nil_r.
  - cbn [foldl]. rewrite forEachRow_step, IH.
    rewrite appendShapes_assoc, <- shapesOf_cons. f_equal.
    cbn [omap list_omap].
    destruct (registration enums config row); reflexivity.
Qed.

Lemma dom_register (customTypes : CustomTypes) entries :
  dom (register customTypes entries) =
  dom customTypes ∪ list_to_set (filter (λ key, key ≠ "__proto__") entries.*1).
Proof.
  revert customTypes. induction entries as [|[k v] entries IH]; intros customTypes.
  - simpl. set_solver.
  - change (register customTypes ((k, v) :: entries))
      with (register (setProperty k v customTypes) entries).
    rewrite IH. cbn [fmap list_fmap fst]. rewrite filter_cons.
    unfold setProperty. case_bool_decide as Hproto.
    + rewrite decide_False by naive_solver. done.
    + rewrite decide_True by done. rewrite dom_insert_L. set_solver.
Qed.

Lemma behaves_keys {A} (m : Async A) r keys keys' :
  keys = keys' → behaves m r keys → behaves m r keys'.
Proof. by intros ->. Qed.

Lemma behaves_None_keys {A} (m : Async A) keys keys' :
  behaves m None keys → behaves m None keys'.
Proof. intros Hm w. apply (Hm w). Qed.

(** One relation: its block depends on the catalog only, and the keys it
    registers are those of its columns. *)
Lemma definitionForTableInSchema_behaves rel schema enums config pool :
  behaves (definitionForTableInSchema rel schema enums config pool)
          (tableDefOf config pool schema enums rel)
          (tableKeysOf config pool schema enums rel).
Proof.
  intros w.
  unfold definitionForTableInSchema, columnsForRelation, tableDefOf, tableKeysOf.
  unfold mbind at 1 2 3 4, Async_bind, query, getCustomTypes, setCustomTypes.
  destruct (columnRows pool rel schema) as [cols|e]; simpl.
  - rewrite forEachRow_fold, appendShapes_noShapes. simpl.
    destruct (uniqueIndexRows pool (name rel)) as [uniqueIndexes|e]; simpl.
    + eexists _, _. split; [reflexivity|]. split.
      * exists [columnsQuery rel schema; uniqueIndexesQuery (name rel)].
        simpl. by rewrite <- (assoc_L (++)).
      * split; [done|]. simpl. apply dom_register.
    + eexists _, _. split; [reflexivity|]. split.
      * exists [columnsQuery rel schema; uniqueIndexesQuery (name rel)].
        simpl. by rewrite <- (assoc_L (++)).
      * by eexists.
  - eexists _, _. split; [reflexivity|]. split.
    + by exists [columnsQuery rel schema].
    + by eexists.
Qed.

Lemma schemaDataFor_behaves sched config pool schema rules :
  behaves (schemaDataFor sched config pool schema rules)
          (schemaDataOf config pool (schema, rules))
          (schemaKeysOf config pool (schema, rules)).
Proof.
  unfold schemaDataFor, schemaDataOf, schemaKeysOf. simpl.
  assert (behaves
    (match exclude rules with
     | star => mret []
     | names excluded =>
         rels ← relationsInSchema schema pool;
         mret (filter (λ rel, name rel ∉ excluded)
                 (filter (λ rel, isIncluded (include rules) rel = true) rels))
     end) (tablesOf pool schema rules) ∅) as Htables.
  { unfold tablesOf, relationsInSchema.
    destruct (exclude rules) as [|excluded]; [apply behaves_ret|].
    pose proof (behaves_query (relationsQuery schema) (relationRows pool schema)) as Hq.
    destruct (relationRows pool schema) as [rels|e]; simpl in *.
    - eapply behaves_keys; [|eapply behaves_bind_Some; [exact Hq|apply behaves_ret]].
      set_solver.
    - by eapply behaves_bind_None. }
  destruct (tablesOf pool schema rules) as [tables|]; simpl;
    [|by eapply behaves_bind_None].
  pose proof (behaves_query (enumsQuery schema) (enumRows pool schema)) as Henums.
  unfold enumDataForSchema.
  destruct (enumRows pool schema) as [enums|e]; simpl in *;
    [|eapply behaves_None_keys, behaves_bind_Some; [exact Htables|];
      eapply behaves_bind_None; exact Henums].
  pose proof (promiseAll_behaves (tablePicks sched schema) tables
    (λ table, definitionForTableInSchema table schema enums config pool)
    (tableDefOf config pool schema enums)
    (tableKeysOf config pool schema enums)
    (λ table _, definitionForTableInSchema_behaves table schema enums config pool))
    as Hall.
  destruct (mapM (tableDefOf config pool schema enums) tables) as [tableDefs|]; simpl.
  - eapply behaves_keys;
      [|eapply behaves_bind_Some; [exact Htables|];
        eapply behaves_bind_Some; [exact Henums|];
        eapply behaves_bind_Some; [exact Hall|apply behaves_ret]].
    set_solver.
  - eapply behaves_None_keys, behaves_bind_Some; [exact Htables|].
    eapply behaves_bind_Some; [exact Henums|].
    eapply behaves_bind_None; exact Hall.
Qed.

Lemma register_lookup entries : ∀ (customTypes : CustomTypes) key,
  key ≠ "__proto__" →
  register customTypes entries !! key =
  match lastRegistered key entries with
  | Some placeholder => Some placeholder
  | None => customTypes !! key
  end.
Proof.
  induction entries as [|[k v] entries IH]; intros customTypes key Hkey; [done|].
  change (register customTypes ((k, v) :: entries))
    with (register (setProperty k v customTypes) entries).
  rewrite IH by done. unfold lastRegistered. rewrite filter_cons. simpl.
  destruct (last (filter (λ entry, entry.1 = key) entries)) as [entry|] eqn:Hlast.
  - case_decide; [|by rewrite Hlast].
    destruct (filter (λ entry, entry.1 = key) entries) as [|e es]; [done|].
    change (last ((k, v) :: e :: es)) with (last (e :: es)). by rewrite Hlast.
  - apply last_None in Hlast. rewrite Hlast. unfold setProperty.
    case_decide; simplify_eq/=.
    + rewrite bool_decide_eq_false_2 by done. by rewrite lookup_insert_eq.
    + case_bool_decide; [done|]. by rewrite lookup_insert_ne.
Qed.

(** C1 (as amended): every column of cases 2-4 writes its transformed key
    with its placeholder type into the shared registry, and a later
    registration of the same key replaces the earlier one: after the rows
    of a relation, a key holds the placeholder of the last column
    registered under it, and a key no column registered holds what it
    held before.  The key [__proto__] is left aside. *)
Theorem registry_last_write_wins rel enums config rows sh
    (customTypes : CustomTypes) key :
  key ≠ "__proto__" →
  (foldl (forEachRow rel enums config) (sh, customTypes) rows).2 !! key =
  match lastRegistered key (omap (registration enums config) rows) with
  | Some placeholder => Some placeholder
  | None => customTypes !! key
  end.
Proof. intros Hkey. rewrite forEachRow_fold. by apply register_lookup. Qed.

(** X15: classification is total and its cases exclude each other.  With a
    null domain and a known base type the mapped type is returned and the
    registry is left as it was; in every other case the resolved type is a
    reference to the transformed key (of the domain name if there is one,
    of the base type name otherwise), and that key, and no other, is
    written with the mapped type when the base type is known and with
    ['any'] otherwise; the key [__proto__] alone is written nowhere. *)
Theorem classification_cases row enums config (customTypes : CustomTypes) :
  let mapped := tsTypeForPgType (udtName row) enums in
  let key := transformCustomType (default (udtName row) (domainName row)) config in
  let placeholder := if decide (mapped = "any") then "any" else mapped in
  resolveType row enums config customTypes =
    (if decide (domainName row = None ∧ mapped ≠ "any")
     then (mapped, customTypes)
     else ("c." +:+ key,
           if decide (key = "__proto__") then customTypes
           else <[key := placeholder]> customTypes)) ∧
  ∀ other, other ≠ key →
    (resolveType row enums config customTypes).2 !! other = customTypes !! other.
Proof.
  intros mapped key placeholder.
  assert (∀ other value, other ≠ key →
            setProperty key value customTypes !! other = customTypes !! other)
    as Hother.
  { intros other value Hne. unfold setProperty.
    case_bool_decide; [done|]. by rewrite lookup_insert_ne. }
  assert (∀ value, setProperty key value customTypes =
            if decide (key = "__proto__") then customTypes
            else <[key := value]> customTypes) as Hset.
  { intros value. unfold setProperty. case_bool_decide.
    - by rewrite decide_True.
    - by rewrite decide_False. }
  unfold resolveType. fold mapped. fold key. unfold placeholder.
  destruct (domainName row) as [domain|] eqn:Hdomain;
    destruct (decide (mapped = "any")) as [Hany|Hknown]; simpl.
  - rewrite bool_decide_eq_true_2 by done. simpl. rewrite Hany, Hset.
    split; [done|]. intros other Hne. rewrite <- Hset. by apply Hother.
  - rewrite bool_decide_eq_false_2 by done. simpl. rewrite Hset.
    split; [done|]. intros other Hne. rewrite <- Hset. by apply Hother.
  - rewrite bool_decide_eq_true_2 by done. rewrite decide_False by naive_solver.
    simpl. rewrite Hany, Hset.
    split; [done|]. intros other Hne. rewrite <- Hset. by apply Hother.
  - rewrite bool_decide_eq_false_2 by done. rewrite decide_True by done.
    simpl. done.
Qed.

(** The option a lookup yields is the option of the entry the override
    table holds for the column, under the relation or else under ["*"],
    unless the lookup under the relation stops at an inherited member. *)
Lemma columnOptionsFor_override config relName column :
  (∀ member, optionsIn (columnOptions config) relName column ≠ inheritedProperty member) →
  insertOf (columnOptionsFor config relName column) =
    overrideFor (columnOptions config) relName column ≫= ColumnOptions.insert ∧
  updateOf (columnOptionsFor config relName column) =
    overrideFor (columnOptions config) relName column ≫= ColumnOptions.update.
Proof.
  unfold columnOptionsFor, overrideFor, optionsIn, getProperty. intros Hown.
  destruct (columnOptions config !! relName) as [forRel|]; simpl in *.
  - destruct (forRel !! column) as [o|]; simpl in *; [done|].
    destruct (inheritedMember column); [by destruct (Hown column)|].
    destruct (columnOptions config !! "*") as [forAll|]; simpl.
    + destruct (forAll !! column); [done|]. by destruct (inheritedMember column).
    + destruct (inheritedMember "*"); [|done].
      by destruct (memberOfInherited "*" column).
  - destruct (inheritedMember relName).
    { destruct (memberOfInherited relName column); [by destruct (Hown column)|].
      destruct (columnOptions config !! "*") as [forAll|]; simpl.
      - destruct (forAll !! column); [done|]. by destruct (inheritedMember column).
      - destruct (inheritedMember "*"); [|done].
        by destruct (memberOfInherited "*" column). }
    destruct (columnOptions config !! "*") as [forAll|]; simpl.
    + destruct (forAll !! column); [done|]. by destruct (inheritedMember column).
    + destruct (inheritedMember "*"); [|done].
      by destruct (memberOfInherited "*" column).
Qed.

Lemma optionsIn_not_inherited table relName column :
  inheritedMember relName = false → inheritedMember column = false →
  ∀ member, optionsIn table relName column ≠ inheritedProperty member.
Proof.
  intros Hrel Hcolumn member. unfold optionsIn, getProperty.
  rewrite Hrel, Hcolumn.
  destruct (table !! relName) as [forRel|]; [|done].
  by destruct (forRel !! column).
Qed.

Lemma filter_ext_Forall {X} (P Q : X → Prop) `{∀ x, Decision (P x)}
    `{∀ x, Decision (Q x)} (l : list X) :
  Forall (λ x, P x ↔ Q x) l → filter P l = filter Q l.
Proof.
  induction 1 as [|x l HPQ _ IH]; [done|].
  rewrite !filter_cons, IH.
  destruct (decide (P x)), (decide (Q x)); tauto.
Qed.

(** X16: the roles of the columns of a relation, in a configuration where
    neither the name of the relation nor the name of a column is that of a
    member every object inherits: every column has a field in the
    read-shape and in the filter-shape; it has one in the insert-shape iff
    it is not generated and its override, the entry under the relation or
    else under ["*"], does not exclude it from insert, marked optional iff
    it is nullable, has a default or its override makes it optional; it
    has one in the update-shape iff it is not generated and its override
    does not exclude it from update, always marked optional. *)
Theorem role_inclusion_by_override rel enums config (customTypes : CustomTypes) rows :
  inheritedMember (name rel) = false →
  Forall (λ row, inheritedMember (column row) = false) rows →
  let sh := (foldl (forEachRow rel enums config) (noShapes, customTypes) rows).1 in
  let o row := overrideFor (columnOptions config) (name rel) (column row) in
  let types row := basicInsertableTypes row (tsTypeForPgType (udtName row) enums)
                     (resolvedType row enums config) in
  selectables sh =
    map (λ row, column row +:+ ": " +:+ resolvedType row enums config +:+
                (if isNullable row then " | null" else "") +:+ ";") rows ∧
  whereables sh = map (whereableFor enums config) rows ∧
  (∀ row, ∃ valueTypes, whereableFor enums config row =
     column row +:+ "?: " +:+ valueTypes) ∧
  insertables sh =
    map (λ row, column row +:+
                (if decide (isNullable row = true ∨ hasDefault row = true ∨
                            o row ≫= ColumnOptions.insert = Some insertOptional)
                 then "?" else "") +:+
                ": " +:+ types row +:+ ";")
        (filter (λ row, isGenerated row = false ∧
                        o row ≫= ColumnOptions.insert ≠ Some insertExcluded) rows) ∧
  updatables sh =
    map (λ row, column row +:+ "?: " +:+ types row +:+
                " | db.SQLFragment<any, " +:+ types row +:+ ">;")
        (filter (λ row, isGenerated row = false ∧
                        o row ≫= ColumnOptions.update ≠ Some updateExcluded) rows).
Proof.
  intros Hrel Hcolumns sh o types. unfold sh.
  rewrite forEachRow_fold, appendShapes_noShapes. simpl.
  assert (Forall (λ row,
            insertOf (columnOptionsFor config (name rel) (column row)) =
              o row ≫= ColumnOptions.insert ∧
            updateOf (columnOptionsFor config (name rel) (column row)) =
              o row ≫= ColumnOptions.update) rows) as Ho.
  { eapply Forall_impl; [exact Hcolumns|]. intros row Hcolumn.
    apply columnOptionsFor_override. by apply optionsIn_not_inherited. }
  split; [done|]. split; [done|]. split; [intros row; by eexists|]. split.
  - rewrite (filter_ext_Forall (inInsertShape config rel)
               (λ row, isGenerated row = false ∧
                       o row ≫= ColumnOptions.insert ≠ Some insertExcluded)).
    2: { eapply Forall_impl; [exact Ho|]. intros row [Hi _].
         unfold inInsertShape. by rewrite Hi. }
    apply Forall_fmap_ext_1. apply Forall_forall. intros row Hrow.
    apply list_elem_of_filter in Hrow as [_ Hrow].
    rewrite Forall_forall in Ho. destruct (Ho row Hrow) as [Hi _].
    unfold insertableFor, insertableDecl, insertablyOptional. rewrite Hi.
    fold (types row).
    destruct (decide _) as [Hopt|Hopt].
    + replace (isNullable row || hasDefault row || bool_decide _) with true; [done|].
      symmetry. rewrite !orb_true_iff, bool_decide_eq_true. tauto.
    + replace (isNullable row || hasDefault row || bool_decide _) with false; [done|].
      symmetry. apply not_true_is_false.
      rewrite !orb_true_iff, bool_decide_eq_true. tauto.
  - rewrite (filter_ext_Forall (inUpdateShape config rel)
               (λ row, isGenerated row = false ∧
                       o row ≫= ColumnOptions.update ≠ Some updateExcluded)).
    2: { eapply Forall_impl; [exact Ho|]. intros row [_ Hu].
         unfold inUpdateShape. by rewrite Hu. }
    done.
Qed.

(** C10: the override of a column is the entry under the relation's own
    name whenever the table holds one, taken whole: the wildcard entry
    then plays no part in any of the role decisions.  Without such an
    entry, the options in effect, if any, are the whole entry under
    ["*"]; the lookup under ["*"] is what the code uses when the lookup
    under the relation finds nothing, and it is not reached when that
    lookup stops at a member the objects inherit. *)
Theorem relation_entry_precedes_wildcard config rel row :
  let table := columnOptions config in
  let found := columnOptionsFor config (name rel) (column row) in
  match table !! name rel ≫= (λ forRel, forRel !! column row) with
  | Some o =>
      found = ownProperty o ∧
      (inInsertShape config rel row ↔
         isGenerated row = false ∧ ColumnOptions.insert o ≠ Some insertExcluded) ∧
      (inUpdateShape config rel row ↔
         isGenerated row = false ∧ ColumnOptions.update o ≠ Some updateExcluded) ∧
      (optionalOnInsert config rel row ↔
         isNullable row = true ∨ hasDefault row = true ∨
         ColumnOptions.insert o = Some insertOptional)
  | None =>
      (∀ o, found = ownProperty o ↔
            optionsIn table (name rel) (column row) = noProperty ∧
            table !! "*" ≫= (λ forAll, forAll !! column row) = Some o) ∧
      (optionsIn table (name rel) (column row) = noProperty →
         found = optionsIn table "*" (column row)) ∧
      (∀ member, optionsIn table (name rel) (column row) = inheritedProperty member →
         found = inheritedProperty member)
  end.
Proof.
  intros table found. unfold found, table.
  unfold inInsertShape, inUpdateShape, optionalOnInsert, columnOptionsFor.
  destruct (columnOptions config !! name rel ≫= _) as [o|] eqn:Hown.
  - assert (optionsIn (columnOptions config) (name rel) (column row) = ownProperty o)
      as ->; [|done].
    unfold optionsIn, getProperty.
    destruct (columnOptions config !! name rel) as [forRel|]; [|done].
    simpl in Hown. by rewrite Hown.
  - assert (∀ o, optionsIn (columnOptions config) (name rel) (column row) ≠
                 ownProperty o) as Hnone.
    { intros o. unfold optionsIn, getProperty.
      destruct (columnOptions config !! name rel) as [forRel|]; simpl in Hown.
      - rewrite Hown. by destruct (inheritedMember (column row)).
      - destruct (inheritedMember (name rel)); [|done].
        by destruct (memberOfInherited (name rel) (column row)). }
    destruct (optionsIn (columnOptions config) (name rel) (column row))
      as [o|member|] eqn:Hrel.
    + by destruct (Hnone o).
    + split; [|done]. intros o. split; [done|]. by intros [? _].
    + split; [|done]. intros o. unfold optionsIn at 1, getProperty.
      destruct (columnOptions config !! "*") as [forAll|]; simpl.
      * destruct (forAll !! column row) as [o'|].
        { split; [intros [= ->]; done|]. by intros [_ [= ->]]. }
        destruct (inheritedMember (column row)); split; try done; by intros [_ ?].
      * destruct (inheritedMember "*").
        { destruct (memberOfInherited "*" (column row)); split; try done;
            by intros [_ ?]. }
        split; [done|]. by intros [_ ?].
Qed.

(** C7: with no relation at all, each of the union types [Table],
    [Selectable], [Whereable], [Insertable], [Updatable], [UniqueIndex]
    and [Column], and each lookup type [...ForTable], is ['any'], not
    ['never']. *)
Theorem empty_relations_give_any :
  (∀ fn, mappedUnion [] fn = "any") ∧
  (∀ thingable, forTableType [] thingable =
     nl +:+ "export type " +:+ thingable +:+ "ForTable<T extends Table> = any;" +:+ nl) ∧
  crossTableTypesForTables [] =
    nl +:+ "// `never` rather than `any` types would be more accurate in this no-tables case, but they stop `shortcuts.ts` compiling" +:+ nl +:+
    join nl [
      "";
      "export type Table = any;";
      "export type Selectable = any;";
      "export type Whereable = any;";
      "export type Insertable = any;";
      "export type Updatable = any;";
      "export type UniqueIndex = any;";
      "export type Column = any;";
      "export type AllTables = [];";
      "export type AllMaterializedViews = [];";
      "";
      "";
      "export type SelectableForTable<T extends Table> = any;";
      "";
      "export type WhereableForTable<T extends Table> = any;";
      "";
      "export type InsertableForTable<T extends Table> = any;";
      "";
      "export type UpdatableForTable<T extends Table> = any;";
      "";
      "export type UniqueIndexForTable<T extends Table> = any;";
      "";
      "export type ColumnForTable<T extends Table> = any;";
      "";
      "export type SQLForTable<T extends Table> = any;";
      ""
    ].
Proof.
  split; [done|]. split; [|by vm_compute].
  intros thingable. reflexivity.
Qed.

Lemma behaves_resolved {A} (m : Async A) r keys w a :
  behaves m r keys → (m w).1 = resolved a → r = Some a.
Proof.
  intros Hm Hrun. destruct (Hm w) as (o & w' & Hmw & _ & Hr).
  rewrite Hmw in Hrun. simpl in Hrun. subst o.
  destruct r as [a'|]; [|by destruct Hr]. destruct Hr as [[= ->] _]. done.
Qed.




Lemma definitionForTableInSchema_asks rel schema enums config pool :
  asks pool (λ q, q = columnsQuery rel schema ∨ q = uniqueIndexesQuery (name rel))
    (λ _, True) (definitionForTableInSchema rel schema enums config pool).
Proof.
  unfold definitionForTableInSchema, columnsForRelation.
  eapply asks_bind; [apply asks_query; [by left|done]|].
  intros cols _. eapply asks_bind; [apply asks_getCustomTypes|].
  intros customTypes _. destruct (foldl _ _ cols) as [sh customTypes'].
  eapply asks_bind; [apply asks_setCustomTypes|]. intros _ _.
  eapply asks_bind; [apply asks_query; [by right|done]|].
  intros uniqueIndexes _. by apply asks_ret.
Qed.

Lemma schemaDataFor_asks sched config pool schema rules :
  asks pool (queryAbout pool schema rules)
    (λ data, tablesOf pool schema rules = Some (tables data))
    (schemaDataFor sched config pool schema rules).
Proof.
  unfold schemaDataFor, relationsInSchema, enumDataForSchema.
  eapply (asks_bind _ _ (λ tables, tablesOf pool schema rules = Some tables)).
  { unfold tablesOf. destruct (exclude rules) as [|excluded] eqn:Hex.
    - by apply asks_ret.
    - eapply asks_bind.
      + apply asks_query; [|done]. left. split; [done|]. by rewrite Hex.
      + intros rels Hrels. apply asks_ret. by rewrite Hrels. }
  intros tables Htables.
  eapply asks_bind; [apply asks_query; [by right; left|done]|].
  intros enums _.
  eapply asks_bind; [|intros tableDefs _; by apply asks_ret].
  apply asks_promiseAll, Forall_map, Forall_forall. intros rel Hrel.
  eapply asks_weaken; [| |apply definitionForTableInSchema_asks]; [|done].
  intros q Hq. right; right. by exists tables, rel.
Qed.

(** C6: exclusion takes precedence over inclusion.  The text of a schema
    is made of one block for each of its relations and of no other block;
    with the exclude rule ['*'] the schema has no relation and its text no
    block, whatever the include rule; with a list of excluded names, no
    relation of the schema bears one of them, whether or not the include
    rule names it.  Columns are queried for the relations of the schema
    only. *)
Theorem exclusion_takes_precedence sched config pool schema rules w data :
  (schemaDataFor sched config pool schema rules w).1 = resolved data →
  (∃ enums tableDefs,
     enumRows pool schema = rows enums ∧
     Forall2 (λ rel tableDef, ∃ sh uniqueIndexes,
                tableDef = tableDefText rel sh uniqueIndexes)
             (tables data) tableDefs ∧
     schemaDef data = schemaDefText schema enums tableDefs) ∧
  (exclude rules = star →
     tables data = [] ∧
     ∃ enums, schemaDef data = schemaDefText schema enums []) ∧
  (∀ excluded rel,
     exclude rules = names excluded → name rel ∈ excluded → rel ∉ tables data) ∧
  (∃ queries,
     events (schemaDataFor sched config pool schema rules w).2 =
       events w ++ map poolQuery queries ∧
     ∀ rel schemaName, columnsQuery rel schemaName ∈ queries → rel ∈ tables data).
Proof.
  intros Hrun.
  pose proof (schemaDataFor_asks sched config pool schema rules w)
    as (queries & Hevents & Habout & Hout).
  rewrite Hrun in Hout. destruct Hout as [Htables _].
  apply (behaves_resolved _ _ _ _ _
           (schemaDataFor_behaves sched config pool schema rules)) in Hrun.
  unfold schemaDataOf in Hrun. simpl in Hrun. rewrite Htables in Hrun.
  destruct (enumRows pool schema) as [enums|]; [|done]. simpl in Hrun.
  destruct (mapM (tableDefOf config pool schema enums) (tables data))
    as [tableDefs|] eqn:Hdefs; [|done].
  simpl in Hrun. injection Hrun as Hdata.
  assert (schemaDef data = schemaDefText schema enums tableDefs) as HschemaDef
    by (by rewrite <- Hdata).
  apply mapM_Some_1 in Hdefs.
  split; [|split; [|split]].
  - exists enums, tableDefs. split; [done|]. split; [|done].
    eapply Forall2_impl; [exact Hdefs|].
    intros rel tableDef Hdef. unfold tableDefOf in Hdef.
    destruct (columnRows pool rel schema) as [cols|]; [|done].
    destruct (uniqueIndexRows pool (name rel)) as [uniqueIndexes|]; [|done].
    simpl in Hdef. injection Hdef as <-. by eexists _, _.
  - intros Hex. unfold tablesOf in Htables. rewrite Hex in Htables.
    injection Htables as Hnone. rewrite <- Hnone in *.
    apply Forall2_nil_inv_l in Hdefs as ->. split; [done|]. by exists enums.
  - intros excluded rel Hex Hin Hrel. unfold tablesOf in Htables.
    rewrite Hex in Htables.
    destruct (relationRows pool schema); simplify_option_eq.
    rewrite <- Htables in Hrel.
    apply list_elem_of_filter in Hrel as [Hout _]. done.
  - exists queries. split; [done|]. intros rel schemaName Hq.
    rewrite Forall_forall in Habout.
    destruct (Habout _ Hq) as [[[=] _]|[[=]|(tables' & rel' & Htables' & Hrel' & Hq')]].
    rewrite Htables in Htables'. injection Htables' as <-.
    destruct Hq' as [[= -> _]|[=]]. done.
Qed.

(** C2 (as amended): the blocks of the relations of a schema appear in
    ascending order of their text compared code unit by code unit (so a
    name in upper case comes before a name in lower case); each block is
    the block of one relation of the schema, and in it the fields of each
    shape are those of the columns in the order the catalog returned
    them. *)
Theorem blocks_in_code_unit_order sched config pool schema rules w data :
  (schemaDataFor sched config pool schema rules w).1 = resolved data →
  ∃ enums tableDefs blocks,
    enumRows pool schema = rows enums ∧
    Forall2 (λ rel tableDef, ∃ cols uniqueIndexes,
       columnRows pool rel schema = rows cols ∧
       uniqueIndexRows pool (name rel) = rows uniqueIndexes ∧
       tableDef = tableDefText rel
         {| selectables := map (selectableFor enums config) cols;
            whereables := map (whereableFor enums config) cols;
            insertables := map (insertableFor rel enums config)
                               (filter (inInsertShape config rel) cols);
            updatables := map (updatableFor enums config)
                              (filter (inUpdateShape config rel) cols) |}
         uniqueIndexes) (tables data) tableDefs ∧
    blocks ≡ₚ tableDefs ∧
    Sorted String.le blocks ∧
    schemaDef data =
      nl +:+ "/* === schema: " +:+ schema +:+ " === */" +:+ nl +:+
      nl +:+ "/* --- enums --- */" +:+ nl +:+
      enumTypesForEnumData enums +:+
      nl +:+ nl +:+ "/* --- tables --- */" +:+ nl +:+
      join nl blocks.
Proof.
  intros Hrun.
  apply (behaves_resolved _ _ _ _ _
           (schemaDataFor_behaves sched config pool schema rules)) in Hrun.
  unfold schemaDataOf in Hrun. simpl in Hrun.
  destruct (tablesOf pool schema rules) as [tables|]; [|done].
  destruct (enumRows pool schema) as [enums|]; [|done]. simpl in Hrun.
  destruct (mapM (tableDefOf config pool schema enums) tables)
    as [tableDefs|] eqn:Hdefs; [|done].
  simpl in Hrun. injection Hrun as <-. simpl.
  exists enums, tableDefs, (jsSort tableDefs).
  split; [done|]. split; [|split; [apply jsSort_Permutation|]].
  - apply mapM_Some_1 in Hdefs.
    eapply Forall2_impl; [exact Hdefs|].
    intros rel tableDef Hdef. unfold tableDefOf in Hdef.
    destruct (columnRows pool rel schema) as [cols|]; [|done].
    destruct (uniqueIndexRows pool (name rel)) as [uniqueIndexes|]; [|done].
    simpl in Hdef. injection Hdef as <-. by exists cols, uniqueIndexes.
  - split; [apply jsSort_Sorted|done].
Qed.

Lemma hasCustomTypes_keys (customTypes : CustomTypes) (keys : gset string) :
  dom customTypes = ∅ ∪ keys →
  bool_decide (customTypes ≠ ∅) = bool_decide (keys ≠ ∅).
Proof.
  intros Hdom. apply bool_decide_ext.
  rewrite <- (dom_empty_iff_L customTypes), Hdom. set_solver.
Qed.

Lemma schemas_behaves sched config :
  behaves
    (promiseAll (schemaPicks sched)
       (map (λ '(schema, rules), schemaDataFor sched config (db config) schema rules)
            (schemas config)))
    (mapM (schemaDataOf config (db config)) (schemas config))
    (⋃ (map (schemaKeysOf config (db config)) (schemas config))).
Proof.
  apply promiseAll_behaves. intros [schema rules] _. apply schemaDataFor_behaves.
Qed.

(** A run, whatever the schedule and the world it starts in: whether it
    resolves and with which text depends on the configuration only; the
    pool is created first, then queried, and ended last if the run
    resolves. *)
Lemma tsForConfig_result config :
  ∃ r : option string, ∀ sched w, ∃ queries,
    match tsForConfig sched config w with
    | (resolved o, w') =>
        r = Some (ts o) ∧
        events w' = events w ++ [poolNew] ++ map poolQuery queries ++ [poolEnd]
    | (rejected _, w') =>
        r = None ∧
        events w' = events w ++ [poolNew] ++ map poolQuery queries
    end.
Proof.
  destruct (mapM (schemaDataOf config (db config)) (schemas config))
    as [schemaData|] eqn:HmapM.
  - eexists. intros sched w.
    pose proof (schemas_behaves sched config) as Hall. rewrite HmapM in Hall.
    unfold tsForConfig, mbind, Async_bind, emit, setCustomTypes, getCustomTypes.
    simpl.
    match goal with
    | |- context [promiseAll ?picks ?tasks ?w0] =>
        destruct (Hall w0) as (o & w' & Hrun & [queries Hq] & -> & Hdom);
        change (promiseAll picks tasks w0 = (resolved schemaData, w')) in Hrun;
        rewrite Hrun
    end.
    simpl in *. exists queries. split.
    + rewrite (hasCustomTypes_keys _ _ Hdom). reflexivity.
    + rewrite Hq. by rewrite <- !(assoc_L (++)).
  - exists None. intros sched w.
    pose proof (schemas_behaves sched config) as Hall. rewrite HmapM in Hall.
    unfold tsForConfig, mbind, Async_bind, emit, setCustomTypes, getCustomTypes.
    simpl.
    match goal with
    | |- context [promiseAll ?picks ?tasks ?w0] =>
        destruct (Hall w0) as (o & w' & Hrun & [queries Hq] & e & ->);
        change (promiseAll picks tasks w0 = (rejected e, w')) in Hrun;
        rewrite Hrun
    end.
    simpl in *. exists queries. split; [done|].
    rewrite Hq. by rewrite <- !(assoc_L (++)).
Qed.

(** The log of a run: the pool is created, then sent queries, each about
    a schema of the configuration, then ended if the run resolves. *)
Lemma tsForConfig_log sched config w :
  ∃ queries,
    Forall (λ q, ∃ schema rules, (schema, rules) ∈ schemas config ∧
                                 queryAbout (db config) schema rules q) queries ∧
    match (tsForConfig sched config w).1 with
    | resolved _ =>
        events (tsForConfig sched config w).2 =
        events w ++ [poolNew] ++ map poolQuery queries ++ [poolEnd] ∧
        Forall (λ q, errorOf (db config) q = None) queries
    | rejected e =>
        events (tsForConfig sched config w).2 =
        events w ++ [poolNew] ++ map poolQuery queries ∧
        Exists (λ q, errorOf (db config) q = Some e) queries
    end.
Proof.
  assert (asks (db config)
            (λ q, ∃ schema rules, (schema, rules) ∈ schemas config ∧
                                  queryAbout (db config) schema rules q)
            (λ _, True)
            (promiseAll (schemaPicks sched)
               (map (λ '(schema, rules),
                       schemaDataFor sched config (db config) schema rules)
                    (schemas config)))) as Hall.
  { apply asks_promiseAll, Forall_map, Forall_forall. intros [schema rules] Hentry.
    eapply asks_weaken; [| |apply schemaDataFor_asks]; [|done].
    intros q Hq. by exists schema, rules. }
  unfold tsForConfig, mbind, Async_bind, emit, setCustomTypes, getCustomTypes.
  simpl.
  match goal with
  | |- context [promiseAll ?picks ?tasks ?w0] =>
      destruct (Hall w0) as (queries & Hevents & Habout & Hout);
      destruct (promiseAll picks tasks w0) as [[schemaData|e] w']
  end; simpl in *; exists queries; (split; [done|]).
  - destruct Hout as [_ Hanswered]. split; [|done].
    rewrite Hevents. by rewrite <- !(assoc_L (++)).
  - split; [|done]. rewrite Hevents. by rewrite <- !(assoc_L (++)).
Qed.

(** C4 (as amended): in every run the pool is created once, before any
    query.  When the run resolves, the catalog has answered every query
    sent and the pool is ended once, after the last query.  A query the
    catalog rejects makes the run reject, with the error of a query it
    sent, and the pool is then not ended. *)
Theorem pool_lifecycle sched config w :
  ∃ queries,
    match (tsForConfig sched config w).1 with
    | resolved _ =>
        events (tsForConfig sched config w).2 =
        events w ++ [poolNew] ++ map poolQuery queries ++ [poolEnd] ∧
        Forall (λ q, errorOf (db config) q = None) queries
    | rejected e =>
        events (tsForConfig sched config w).2 =
        events w ++ [poolNew] ++ map poolQuery queries ∧
        Exists (λ q, errorOf (db config) q = Some e) queries
    end.
Proof.
  destruct (tsForConfig_log sched config w) as (queries & _ & Hrun).
  by exists queries.
Qed.

(** C9: the text of a run is determined by the configuration and the
    answers of the catalog.  Two runs of the same configuration, in
    whatever order the tasks of each [Promise.all] complete and whatever
    the worlds they start in, either both reject or both resolve with the
    same text. *)
Theorem tsForConfig_deterministic sched1 sched2 config w1 w2 :
  match (tsForConfig sched1 config w1).1, (tsForConfig sched2 config w2).1 with
  | resolved o1, resolved o2 => ts o1 = ts o2
  | rejected _, rejected _ => True
  | _, _ => False
  end.
Proof.
  destruct (tsForConfig_result config) as [r Hr].
  destruct (Hr sched1 w1) as [queries1 Hrun1].
  destruct (Hr sched2 w2) as [queries2 Hrun2].
  destruct (tsForConfig sched1 config w1) as [[o1|e1] w1'],
           (tsForConfig sched2 config w2) as [[o2|e2] w2']; simpl;
    destruct Hrun1 as [Hr1 _], Hrun2 as [Hr2 _]; first [done | congruence].
Qed.

End Properties.

(** ** The properties on the sample inputs *)

(** C1, as stated, fails: [price] registers the key of domain [amount]
    with placeholder [number]; [label], a later column of the same table
    over a domain of the same name, registers it with [string], and the
    entry of [price] is gone without notice. *)
Lemma later_registration_overwrites :
  (foldl (forEachRow (H := Sample.imports) Sample.orders [] Sample.config)
         (noShapes, ∅) [Sample.id; Sample.price]).2 !! "PgAmount" = Some "number" ∧
  (foldl (forEachRow (H := Sample.imports) Sample.orders [] Sample.config)
         (noShapes, ∅) (Sample.columnsOf Sample.orders)).2 !! "PgAmount"
    = Some "string".
Proof. split; by vm_compute. Qed.

Lemma registry_last_write_wins_witness :
  (foldl (forEachRow (H := Sample.imports) Sample.orders [] Sample.config)
         (noShapes, ∅) (Sample.columnsOf Sample.orders)).2 !! "PgAmount" =
  match lastRegistered "PgAmount"
          (omap (registration (H := Sample.imports) [] Sample.config)
                (Sample.columnsOf Sample.orders)) with
  | Some placeholder => Some placeholder
  | None => (∅ : CustomTypes) !! "PgAmount"
  end.
Proof.
  apply (registry_last_write_wins (H := Sample.imports) Sample.orders [] Sample.config
           (Sample.columnsOf Sample.orders) noShapes ∅ "PgAmount").
  done.
Defined.

(** C3, on the input where it fails: a column over a domain named
    [__proto__], with custom types named as the catalog names them.  The
    column is of case 3; its resolved type is a reference to the key
    [__proto__], and the assignment to that key creates no entry: the
    registry is as it was, the field of the column refers to
    [c.__proto__], and the run over the table resolves with no
    placeholder file. *)
Theorem proto_domain_creates_no_entry :
  domainName Sample.payload = Some "__proto__" ∧
  tsTypeForPgType (Imports := Sample.imports) (udtName Sample.payload) [] =
    "db.JSONValue" ∧
  resolveType (H := Sample.imports) Sample.payload [] Sample.documentsConfig ∅ =
    ("c.__proto__", ∅) ∧
  (let result := foldl (forEachRow (H := Sample.imports) Sample.documents []
                          Sample.documentsConfig)
                       (noShapes, ∅) (Sample.columnsOf Sample.documents) in
   selectables result.1 = ["id: number;"; "payload: c.__proto__;"] ∧
   result.2 = ∅) ∧
  ∃ o w, tsForConfig (H := Sample.imports) Sample.inOrder Sample.documentsConfig
           Sample.start = (resolved o, w) ∧
         customTypeSourceFiles o = ∅ ∧
         registry w = ∅.
Proof.
  split; [done|]. split; [by vm_compute|]. split; [by vm_compute|].
  split; [by vm_compute|].
  eexists _, _. split; [vm_compute; reflexivity|]. by vm_compute.
Qed.

(** C5, on the input where it fails: the table [orders] has overrides
    of its own, none of them for its column [constructor], and the
    wildcard entry excludes that column from insert and from update.
    The lookup under [orders] finds the member [constructor] that every
    object inherits, so the entry under ["*"] is not consulted: the
    column, which is not generated, has a field in the insert-shape and
    in the update-shape although its override excludes it from both. *)
Theorem inherited_member_hides_the_override :
  overrideFor (columnOptions Sample.ordersConfig) (name Sample.orders)
    (column Sample.constructorColumn) =
    Some {| ColumnOptions.insert := Some insertExcluded;
            ColumnOptions.update := Some updateExcluded |} ∧
  columnOptionsFor (H := Sample.imports) Sample.ordersConfig (name Sample.orders)
    (column Sample.constructorColumn) = inheritedProperty "constructor" ∧
  isGenerated Sample.constructorColumn = false ∧
  let sh := (foldl (forEachRow (H := Sample.imports) Sample.orders []
                      Sample.ordersConfig)
                   (noShapes, ∅) [Sample.constructorColumn]).1 in
  insertables sh = ["constructor: string | db.Parameter<string> | db.SQLFragment;"] ∧
  updatables sh =
    ["constructor?: string | db.Parameter<string> | db.SQLFragment | db.SQLFragment<any, string | db.Parameter<string> | db.SQLFragment>;"].
Proof. repeat split; by vm_compute. Qed.

(** C2, as stated, fails: the catalog lists [apple] before [Zebra], the
    case-insensitive order, and the text of the schema, that of
    [Sample.publicData], has the block of [Zebra] before the block of
    [apple]. *)
Lemma blocks_not_in_case_insensitive_order :
  (schemaDataFor (H := Sample.imports) Sample.inOrder Sample.config Sample.catalog
     "public" Sample.rules Sample.start).1 = resolved Sample.publicData ∧
  ¬ caseInsensitiveLe (name Sample.Zebra) (name Sample.apple).
Proof. split; [by vm_compute|]. by vm_compute. Qed.

Lemma blocks_in_code_unit_order_witness :
  ∃ enums tableDefs blocks,
    enumRows Sample.catalog "public" = rows enums ∧
    Forall2 (λ rel tableDef, ∃ cols uniqueIndexes,
       columnRows Sample.catalog rel "public" = rows cols ∧
       uniqueIndexRows Sample.catalog (name rel) = rows uniqueIndexes ∧
       tableDef = tableDefText rel
         {| selectables := map (selectableFor (H := Sample.imports) enums Sample.config) cols;
            whereables := map (whereableFor (H := Sample.imports) enums Sample.config) cols;
            insertables := map (insertableFor (H := Sample.imports) rel enums Sample.config)
                               (filter (inInsertShape (H := Sample.imports) Sample.config rel)
                                       cols);
            updatables := map (updatableFor (H := Sample.imports) enums Sample.config)
                              (filter (inUpdateShape (H := Sample.imports) Sample.config rel)
                                      cols) |}
         uniqueIndexes) (tables Sample.publicData) tableDefs ∧
    blocks ≡ₚ tableDefs ∧
    Sorted String.le blocks ∧
    schemaDef Sample.publicData =
      nl +:+ "/* === schema: " +:+ "public" +:+ " === */" +:+ nl +:+
      nl +:+ "/* --- enums --- */" +:+ nl +:+
      enumTypesForEnumData (Imports := Sample.imports) enums +:+
      nl +:+ nl +:+ "/* --- tables --- */" +:+ nl +:+
      join nl blocks.
Proof.
  apply (blocks_in_code_unit_order (H := Sample.imports) Sample.inOrder Sample.config
           Sample.catalog "public" Sample.rules Sample.start).
  vm_compute. reflexivity.
Defined.

(** C4, as stated, fails: the relation listing rejects, the run rejects
    with it, and the pool has been created and queried but not ended. *)
Lemma pool_not_ended_when_a_query_rejects :
  tsForConfig (H := Sample.imports) Sample.inOrder Sample.failing Sample.start =
  (rejected "connection refused",
   {| registry := ∅; events := [poolNew; poolQuery (relationsQuery "public")] |}).
Proof. by vm_compute. Qed.

Lemma exclusion_takes_precedence_witness :
  (∃ enums tableDefs,
     enumRows Sample.catalog "public" = rows enums ∧
     Forall2 (λ rel tableDef, ∃ sh uniqueIndexes,
                tableDef = tableDefText rel sh uniqueIndexes)
             (tables Sample.publicData) tableDefs ∧
     schemaDef Sample.publicData =
       schemaDefText (H := Sample.imports) "public" enums tableDefs) ∧
  (exclude Sample.rules = star →
     tables Sample.publicData = [] ∧
     ∃ enums, schemaDef Sample.publicData =
                schemaDefText (H := Sample.imports) "public" enums []) ∧
  (∀ excluded rel,
     exclude Sample.rules = names excluded → name rel ∈ excluded →
     rel ∉ tables Sample.publicData) ∧
  (∃ queries,
     events (schemaDataFor (H := Sample.imports) Sample.inOrder Sample.config
               Sample.catalog "public" Sample.rules Sample.start).2 =
       events Sample.start ++ map poolQuery queries ∧
     ∀ rel schemaName, columnsQuery rel schemaName ∈ queries →
                       rel ∈ tables Sample.publicData).
Proof.
  apply (exclusion_takes_precedence (H := Sample.imports) Sample.inOrder Sample.config
           Sample.catalog "public" Sample.rules Sample.start).
  vm_compute. reflexivity.
Defined.


(** The registry, unlike the text, depends on the order in which the
    relations complete: [apple] and [Zebra] register the same key with
    different placeholders. *)
Example registry_depends_on_the_schedule :
  registry (tsForConfig (H := Sample.imports) Sample.inOrder Sample.config
              Sample.start).2 !! "PgValidated_json" = Some "string" ∧
  registry (tsForConfig (H := Sample.imports) Sample.lastFirst Sample.config
              Sample.start).2 !! "PgValidated_json" = Some "db.JSONValue".
Proof. split; by vm_compute. Qed.

(** The columns of [apple]: [id] is generated; [email] is nullable, and
    the entry of [apple] for it (no update) is used whole, so that the
    insert exclusion of the wildcard entry does not apply; [settings] is
    over a domain. *)
Example shapes_of_apple :
  let result := foldl (forEachRow (H := Sample.imports) Sample.apple [] Sample.config)
                      (noShapes, ∅) (Sample.columnsOf Sample.apple) in
  selectables result.1 =
    ["id: number;"; "email: string | null;"; "settings: c.PgValidated_json;"] ∧
  insertables result.1 =
    ["email?: string | db.Parameter<string> | null | db.DefaultType | db.SQLFragment;";
     "settings?: c.PgValidated_json | db.Parameter<c.PgValidated_json> | db.DefaultType | db.SQLFragment;"] ∧
  updatables result.1 =
    ["settings?: c.PgValidated_json | db.Parameter<c.PgValidated_json> | db.DefaultType | db.SQLFragment | db.SQLFragment<any, c.PgValidated_json | db.Parameter<c.PgValidated_json> | db.DefaultType | db.SQLFragment>;"] ∧
  result.2 = {[ "PgValidated_json" := "db.JSONValue" ]}.
Proof. by vm_compute. Qed.

(** ** Further properties of the generator *)

Section StringFacts.

Lemma allChars_app p a b : allChars p (a +:+ b) = allChars p a && allChars p b.
Proof.
  induction a as [|c a IH]; [done|].
  change (p c && allChars p (a +:+ b) = p c && allChars p a && allChars p b).
  by rewrite IH, andb_assoc.
Qed.

Lemma toUpperCase_word c : isWordChar c = true → isWordChar (toUpperCase c) = true.
Proof.
  destruct c as [[] [] [] [] [] [] [] []]; vm_compute; done.
Qed.

Lemma replaceNonWord_strip_word inRun s :
  allChars isWordChar (replaceNonWord "" inRun s) = true.
Proof.
  revert inRun. induction s as [|c s IH]; intros inRun; [done|]. simpl.
  destruct (isWordChar c) eqn:Hc.
  - simpl. by rewrite Hc, IH.
  - destruct inRun; apply IH.
Qed.

Lemma replaceNonWord_underscore_word inRun s :
  allChars isWordChar (replaceNonWord "_" inRun s) = true.
Proof.
  revert inRun. induction s as [|c s IH]; intros inRun; [done|]. simpl.
  destruct (isWordChar c) eqn:Hc.
  - simpl. by rewrite Hc, IH.
  - destruct inRun; [apply IH|].
    change (allChars isWordChar (String "_" (replaceNonWord "_" true s)) = true).
    simpl. apply IH.
Qed.

Lemma replaceNonWord_strip_empty inRun s :
  replaceNonWord "" inRun s = "" ↔ allChars notWordChar s = true.
Proof.
  revert inRun. induction s as [|c s IH]; intros inRun; [done|]. simpl.
  unfold notWordChar at 1. destruct (isWordChar c) eqn:Hc; simpl.
  - split; [done|done].
  - destruct inRun; apply IH.
Qed.

Lemma replaceNonWord_word rep inRun s :
  allChars isWordChar s = true → replaceNonWord rep inRun s = s.
Proof.
  revert inRun. induction s as [|c s IH]; intros inRun Hs; [done|]. simpl in *.
  apply andb_true_iff in Hs as [Hc Hs]. rewrite Hc. f_equal. by apply IH.
Qed.

Lemma replaceUnderscoreThenChar_word s :
  allChars isWordChar s = true →
  allChars isWordChar (replaceUnderscoreThenChar s) = true.
Proof.
  cut (∀ s, (allChars isWordChar s = true →
             allChars isWordChar (replaceUnderscoreThenChar s) = true) ∧
            (∀ a, allChars isWordChar (String a s) = true →
                  allChars isWordChar (replaceUnderscoreThenChar (String a s)) = true)).
  { intros Hboth. apply Hboth. }
  clear s. induction s as [|c s [IH1 IH2]].
  - split; [done|]. intros a Ha. simpl in *. by destruct (Ascii.eqb a "_").
  - split; [apply IH2|].
    intros a Ha. simpl in Ha. apply andb_true_iff in Ha as [Ha Hcs].
    change (replaceUnderscoreThenChar (String a (String c s))) with
      (if Ascii.eqb a "_"
       then if Ascii.eqb c "_"
            then String "_" (replaceUnderscoreThenChar (String c s))
            else String (toUpperCase c) (replaceUnderscoreThenChar s)
       else String a (replaceUnderscoreThenChar (String c s))).
    pose proof Hcs as Hcs'. simpl in Hcs'. apply andb_true_iff in Hcs' as [Hc Hs].
    destruct (Ascii.eqb a "_"); [destruct (Ascii.eqb c "_")|]; simpl.
    + by apply IH2.
    + rewrite (toUpperCase_word c Hc). by apply IH1.
    + rewrite Ha. by apply IH2.
Qed.

Lemma upperFirst_word s :
  allChars isWordChar s = true → allChars isWordChar (upperFirst s) = true.
Proof.
  destruct s as [|c s]; [done|]. simpl. intros [Hc Hs]%andb_true_iff.
  by rewrite (toUpperCase_word c Hc), Hs.
Qed.

(** X1: the identifier of a custom type.  Under ['my_type'] it consists
    of word characters only, and is empty exactly when the raw name has
    no word character; under ['PgMyType'] and ['PgMy_type'] it is [Pg]
    followed by word characters only; a transform function is applied to
    the raw name as it is. *)
Theorem transformCustomType_identifier customType config :
  match customTypesTransform config with
  | my_type =>
      allChars isWordChar (transformCustomType customType config) = true ∧
      (transformCustomType customType config = "" ↔
       allChars notWordChar customType = true)
  | PgMyType | PgMy_type =>
      ∃ rest, transformCustomType customType config = "Pg" +:+ rest ∧
              allChars isWordChar rest = true
  | transformFunction ctt => transformCustomType customType config = ctt customType
  end.
Proof.
  unfold transformCustomType. destruct (customTypesTransform config) as [| | |ctt].
  - split; [apply replaceNonWord_strip_word|apply replaceNonWord_strip_empty].
  - exists (replaceUnderscoreThenChar (String "_" (replaceNonWord "" false customType))).
    split; [done|]. apply replaceUnderscoreThenChar_word. simpl.
    apply replaceNonWord_strip_word.
  - eexists. split; [done|]. apply upperFirst_word, replaceNonWord_underscore_word.
  - done.
Qed.

(** X2: a raw name made of word characters only is kept as it is by
    ['my_type'], and only gets its prefix and its capitals under the two
    other named transforms. *)
Theorem transformCustomType_of_legal_name customType config :
  allChars isWordChar customType = true →
  transformCustomType customType config =
  match customTypesTransform config with
  | my_type => customType
  | PgMyType => replaceUnderscoreThenChar ("Pg_" +:+ customType)
  | PgMy_type => "Pg" +:+ upperFirst customType
  | transformFunction ctt => ctt customType
  end.
Proof.
  intros Hword. unfold transformCustomType.
  by rewrite !(replaceNonWord_word _ _ _ Hword).
Qed.

Lemma string_app_nil_r (a : string) : a +:+ "" = a.
Proof.
  induction a as [|c a IH]; [done|].
  change (String c (a +:+ "") = String c a). by rewrite IH.
Qed.

Lemma lineHasContent_app line rest :
  (rest = "" ∨ ∃ rest', rest = nl +:+ rest') →
  lineHasContent (line +:+ rest) = lineHasContent line.
Proof.
  intros Hrest. induction line as [|c line IH].
  - destruct Hrest as [->|[rest' ->]]; done.
  - change (lineHasContent (String c (line +:+ rest)) = lineHasContent (String c line)).
    simpl. by rewrite IH.
Qed.

Lemma indentLines_line line rest atStart :
  allChars notLineTerminator line = true →
  (rest = "" ∨ ∃ rest', rest = nl +:+ rest') →
  indentLines atStart (line +:+ rest) =
  (if atStart && lineHasContent line then "  " else "") +:+ line +:+
  match rest with
  | EmptyString => ""
  | String c rest' => String c (indentLines true rest')
  end.
Proof.
  intros Hline Hrest. revert atStart.
  induction line as [|c line IH]; intros atStart.
  - destruct Hrest as [->|[rest' ->]]; [by destruct atStart|].
    change (nl +:+ rest') with (String "010" rest').
    change ("" +:+ String "010" rest') with (String "010" rest').
    cbn [indentLines]. rewrite andb_false_r.
    change (lineHasContent (String "010" rest')) with false.
    by rewrite andb_false_r.
  - simpl in Hline. apply andb_true_iff in Hline as [Hc Hline].
    change (String c line +:+ rest) with (String c (line +:+ rest)).
    cbn [indentLines].
    change (String c (line +:+ rest)) with (String c line +:+ rest) at 1.
    rewrite (lineHasContent_app (String c line) rest Hrest).
    unfold notLineTerminator in Hc. apply negb_true_iff in Hc. rewrite Hc.
    rewrite (IH Hline false). simpl.
    destruct (atStart && lineHasContent (String c line)); reflexivity.
Qed.

Lemma indentLines_lines lines :
  Forall (λ line, allChars notLineTerminator line = true) lines →
  indentLines true (join nl lines) = join nl (map indentLine lines).
Proof.
  induction 1 as [|line lines Hline Hlines IH]; [done|].
  destruct lines as [|line' lines].
  - change (indentLines true line = indentLine line).
    rewrite <- (string_app_nil_r line) at 1.
    rewrite (indentLines_line line "" true Hline) by (by left).
    unfold indentLine. simpl.
    destruct (lineHasContent line); by rewrite ?string_app_nil_r.
  - change (join nl (line :: line' :: lines))
      with (line +:+ nl +:+ join nl (line' :: lines)).
    change (join nl (map indentLine (line :: line' :: lines)))
      with (indentLine line +:+ nl +:+ join nl (map indentLine (line' :: lines))).
    rewrite (indentLines_line line (nl +:+ join nl (line' :: lines)) true Hline)
      by (right; by eexists).
    change (nl +:+ join nl (line' :: lines))
      with (String "010" (join nl (line' :: lines))).
    cbn iota. rewrite IH.
    change (indentLine line) with (if lineHasContent line then "  " +:+ line else line).
    destruct (lineHasContent line); cbn [andb];
      [rewrite (string_app_assoc "  " line)|]; reflexivity.
Qed.

(** X3: [declareModule] wraps the declarations in the module header and
    footer and indents them line by line: a line whose first character
    after its leading spaces and tabs is not white space gets two spaces
    in front; every other line (an empty one, one of spaces and tabs
    only, one where another white-space character comes first after
    them) is left as it is, and nothing else changes. *)
Theorem declareModule_lines module lines :
  Forall (λ line, allChars notLineTerminator line = true) lines →
  declareModule module (join nl lines) =
  nl +:+ "declare module '" +:+ module +:+ "' {" +:+ nl +:+
  join nl (map indentLine lines) +:+ nl +:+
  "}" +:+ nl.
Proof. intros Hlines. unfold declareModule. by rewrite indentLines_lines. Qed.

Lemma sourceFiles_dom (customTypes : CustomTypes) :
  dom (sourceFilesForCustomTypes customTypes) = dom customTypes.
Proof.
  unfold sourceFilesForCustomTypes. apply dom_imap_L.
  intros name. rewrite elem_of_dom. split.
  - intros [baseType Hlookup]. exists baseType. split; [done|by eexists].
  - intros (baseType & Hlookup & _). by eexists.
Qed.

Lemma sourceFiles_empty (customTypes : CustomTypes) :
  sourceFilesForCustomTypes customTypes = ∅ ↔ customTypes = ∅.
Proof. by rewrite <- !dom_empty_iff_L, sourceFiles_dom. Qed.

(** X4: the placeholder file of a registered custom type whose name and
    placeholder hold no line break: the header, then the module
    [zapatos/custom] with the indented declaration of the type, preceded
    by the import of [zapatos/db] exactly when the placeholder is
    [db.JSONValue]. *)
Theorem placeholder_file (customTypes : CustomTypes) name baseType :
  customTypes !! name = Some baseType →
  allChars notLineTerminator name = true →
  allChars notLineTerminator baseType = true →
  sourceFilesForCustomTypes customTypes !! name = Some (
    customTypeHeader +:+ nl +:+
    "declare module 'zapatos/custom' {" +:+ nl +:+
    (if decide (baseType = "db.JSONValue")
     then "  import type * as db from 'zapatos/db';" +:+ nl else "") +:+
    "  export type " +:+ name +:+ " = " +:+ baseType +:+
    ";  // replace with your custom type or interface as desired" +:+ nl +:+
    "}" +:+ nl).
Proof.
  intros Hlookup Hname Hbase.
  unfold sourceFilesForCustomTypes. rewrite map_lookup_imap, Hlookup. simpl.
  f_equal. f_equal.
  set (export := "export type " +:+ name +:+ " = " +:+ baseType +:+
                 ";  // replace with your custom type or interface as desired").
  assert (allChars notLineTerminator export = true) as Hexport.
  { unfold export. rewrite !allChars_app, Hname, Hbase. done. }
  assert (indentLine export = "  " +:+ export) as Hindent by done.
  case_bool_decide as Hjson.
  - rewrite decide_True by done.
    rewrite (string_app_assoc _ nl export).
    change ("import type * as db from 'zapatos/db';" +:+ nl +:+ export)
      with (join nl ["import type * as db from 'zapatos/db';"; export]).
    unfold declareModule. rewrite indentLines_lines by (repeat constructor; done).
    cbn [map]. rewrite Hindent.
    change (indentLine "import type * as db from 'zapatos/db';")
      with "  import type * as db from 'zapatos/db';".
    unfold export, join. cbn [String.concat].
    rewrite !string_app_assoc. reflexivity.
  - rewrite decide_False by done.
    change ("" +:+ export) with (join nl [export]).
    unfold declareModule. rewrite indentLines_lines by (repeat constructor; done).
    cbn [map]. rewrite Hindent.
    unfold export, join. cbn [String.concat].
    rewrite !string_app_assoc. reflexivity.
Qed.

(** X5: there is one placeholder file for each key of the registry and
    no other file. *)
Theorem placeholder_files_keys (customTypes : CustomTypes) :
  dom (sourceFilesForCustomTypes customTypes) = dom customTypes.
Proof. apply sourceFiles_dom. Qed.

End StringFacts.

(** Runs [tsForConfig] in [Hrun] up to the outcome of its schemas. *)
Ltac run_schemas Hall Hrun :=
  unfold tsForConfig, mbind, Async_bind, emit, setCustomTypes, getCustomTypes in Hrun;
  simpl in Hrun;
  match type of Hrun with
  | context [promiseAll ?picks ?tasks ?w0] =>
      let o := fresh "o" in
      let w' := fresh "w'" in
      let Hschemas := fresh "Hschemas" in
      let Hq := fresh "Hq" in
      let Hres := fresh "Hres" in
      destruct (Hall w0) as (o & w' & Hschemas & Hq & Hres);
      change (promiseAll picks tasks w0 = (o, w')) in Hschemas;
      rewrite Hschemas in Hrun
  end.

Section FurtherProperties.
Context `{Imports}.

(** X6: what the synthesis of one relation does to the world.  If the
    column query rejects, nothing is registered and no index query is
    sent.  Otherwise the custom types of the columns are written into
    the registry, in the order of the rows, each with an assignment
    [customTypes[key] = type], which stores nothing under the key
    [__proto__]; this is done before the index query is sent, so that
    they stay registered when that query rejects.  The block the task
    resolves with does not depend on the world. *)
Theorem definitionForTableInSchema_run rel schema enums config pool w :
  definitionForTableInSchema rel schema enums config pool w =
  match columnRows pool rel schema with
  | queryError e => (rejected e, logged w [poolQuery (columnsQuery rel schema)])
  | rows cols =>
      let w' :=
        {| registry := register (registry w) (omap (registration enums config) cols);
           events := events w ++ [poolQuery (columnsQuery rel schema);
                                  poolQuery (uniqueIndexesQuery (name rel))] |} in
      match uniqueIndexRows pool (name rel) with
      | queryError e => (rejected e, w')
      | rows uniqueIndexes =>
          (resolved (tableDefText rel (shapesOf rel enums config cols) uniqueIndexes), w')
      end
  end.
Proof.
  unfold definitionForTableInSchema, columnsForRelation.
  unfold mbind at 1 2 3 4, Async_bind, query, getCustomTypes, setCustomTypes, logged.
  destruct (columnRows pool rel schema) as [cols|e]; simpl; [|done].
  rewrite forEachRow_fold, appendShapes_noShapes. simpl.
  destruct (uniqueIndexRows pool (name rel)) as [uniqueIndexes|e]; simpl;
    by rewrite <- (assoc_L (++)).
Qed.

(** X7: a relation all of whose columns are generated, as are the columns
    of a materialized view, has one field per column in its read-shape
    and its filter-shape and none in its insert-shape and its
    update-shape, whatever the overrides. *)
Theorem generated_columns_not_writable rel enums config (customTypes : CustomTypes) rows :
  Forall (λ row, isGenerated row = true) rows →
  let sh := (foldl (forEachRow rel enums config) (noShapes, customTypes) rows).1 in
  insertables sh = [] ∧ updatables sh = [] ∧
  length (selectables sh) = length rows ∧ length (whereables sh) = length rows.
Proof.
  intros Hgenerated sh. unfold sh.
  rewrite forEachRow_fold, appendShapes_noShapes. simpl.
  assert (filter (inInsertShape config rel) rows = []) as ->.
  { induction Hgenerated as [|row rows Hrow _ IH]; [done|].
    rewrite filter_cons, IH. rewrite decide_False; [done|].
    unfold inInsertShape. rewrite Hrow. naive_solver. }
  assert (filter (inUpdateShape config rel) rows = []) as ->.
  { induction Hgenerated as [|row rows Hrow _ IH]; [done|].
    rewrite filter_cons, IH. rewrite decide_False; [done|].
    unfold inUpdateShape. rewrite Hrow. naive_solver. }
  by rewrite !length_map.
Qed.

(** X8: with a list of excluded names, the relations of a schema are
    those the catalog lists that the include rule admits and the exclude
    list does not name, in the order the catalog lists them. *)
Theorem tables_of_schema sched config pool schema rules w data excluded :
  (schemaDataFor sched config pool schema rules w).1 = resolved data →
  exclude rules = names excluded →
  ∃ rels,
    relationRows pool schema = rows rels ∧
    tables data `sublist_of` rels ∧
    ∀ rel, rel ∈ tables data ↔
           rel ∈ rels ∧
           (include rules = star ∨ ∃ included, include rules = names included ∧
                                               name rel ∈ included) ∧
           name rel ∉ excluded.
Proof.
  intros Hrun Hex.
  apply (behaves_resolved _ _ _ _ _
           (schemaDataFor_behaves sched config pool schema rules)) in Hrun.
  unfold schemaDataOf, tablesOf in Hrun. simpl in Hrun. rewrite Hex in Hrun.
  destruct (relationRows pool schema) as [rels|]; [|done].
  simplify_option_eq. exists rels. split; [done|]. split.
  - etrans; apply sublist_filter.
  - intros rel. rewrite !list_elem_of_filter. unfold isIncluded.
    destruct (include rules) as [|included].
    + naive_solver.
    + rewrite bool_decide_eq_true. naive_solver.
Qed.

(** X9: with the exclude rule ['*'] the relations of the schema are not
    even listed: the enum query is the only query sent, and the schema
    resolves with no relation and no block, or rejects with the error of
    the enum query. *)
Theorem excluded_schema_run sched config pool schema rules w :
  exclude rules = star →
  schemaDataFor sched config pool schema rules w =
  match enumRows pool schema with
  | rows enums =>
      (resolved {| schemaDef :=
                     nl +:+ "/* === schema: " +:+ schema +:+ " === */" +:+ nl +:+
                     nl +:+ "/* --- enums --- */" +:+ nl +:+
                     enumTypesForEnumData enums +:+
                     nl +:+ nl +:+ "/* --- tables --- */" +:+ nl;
                   tables := [] |},
       logged w [poolQuery (enumsQuery schema)])
  | queryError e => (rejected e, logged w [poolQuery (enumsQuery schema)])
  end.
Proof.
  intros Hex. unfold schemaDataFor, enumDataForSchema. rewrite Hex.
  unfold mbind, Async_bind, query, logged. simpl.
  destruct (enumRows pool schema) as [enums|e]; simpl; [|done].
  unfold schemaDefText. simpl. by rewrite !string_app_nil_r.
Qed.

Lemma behaves_Some_run {A} (m : Async A) a keys w :
  behaves m (Some a) keys → (m w).1 = resolved a.
Proof. intros Hm. destruct (Hm w) as (o & w' & -> & _ & -> & _). done. Qed.

(** X10: the text of a run that resolves.  It is the header and the
    module [zapatos/schema] holding the import of [zapatos/db], the
    import of [zapatos/custom] exactly when the run produces a
    placeholder file, the version canary, the texts of the schemas in
    ascending order of code units, and the cross-table types of all the
    relations of all the schemas, each once, ordered by [localeCompare]
    when that is a total comparison. *)
Theorem tsForConfig_text sched config w o :
  (tsForConfig sched config w).1 = resolved o →
  ∃ schemaData schemaDefs allTables,
    Forall2 (λ entry data, ∀ w',
       (schemaDataFor sched config (db config) entry.1 entry.2 w').1 = resolved data)
      (schemas config) schemaData ∧
    schemaDefs ≡ₚ map schemaDef schemaData ∧
    Sorted String.le schemaDefs ∧
    allTables ≡ₚ concat (map tables schemaData) ∧
    ((∀ a b, (localeCompare a b ≤ 0)%Z ∨ (localeCompare b a ≤ 0)%Z) →
     Sorted (λ a b, (localeCompare (name a) (name b) ≤ 0)%Z) allTables) ∧
    ts o =
      header +:+ declareModule "zapatos/schema" (
        nl +:+ "import type * as db from 'zapatos/db';" +:+ nl +:+
        (if decide (customTypeSourceFiles o = ∅) then ""
         else "import type * as c from 'zapatos/custom';" +:+ nl) +:+
        versionCanary +:+
        join (nl +:+ nl) schemaDefs +:+
        nl +:+ nl +:+ "/* === cross-table types === */" +:+ nl +:+
        crossTableTypesForTables allTables).
Proof.
  intros Hrun.
  pose proof (schemas_behaves sched config) as Hall.
  run_schemas Hall Hrun.
  destruct (mapM (schemaDataOf config (db config)) (schemas config))
    as [schemaData|] eqn:HmapM;
    [destruct Hres as [-> Hdom]|destruct Hres as [e ->]; done].
  simpl in Hrun. injection Hrun as <-. simpl.
  exists schemaData, (jsSort (map schemaDef schemaData)),
    (jsSortBy (λ a b, (localeCompare (name a) (name b) <=? 0)%Z)
              (concat (map tables schemaData))).
  split.
  { apply mapM_Some_1 in HmapM. eapply Forall2_impl; [exact HmapM|].
    intros [schema rules] data Hdata w''. simpl.
    eapply behaves_Some_run. rewrite <- Hdata. apply schemaDataFor_behaves. }
  split; [apply jsSort_Permutation|]. split; [apply jsSort_Sorted|].
  split; [apply jsSortBy_Permutation|]. split.
  { intros Htotal. eapply Sorted_weaken; [|apply jsSortBy_Sorted].
    - intros a b Hab. by apply Z.leb_le.
    - intros a b. destruct (Htotal (name a) (name b)); [left|right]; by apply Z.leb_le. }
  destruct (decide (sourceFilesForCustomTypes (registry w') = ∅)) as [Hnone|Hsome].
  - apply (proj1 (sourceFiles_empty _)) in Hnone.
    rewrite bool_decide_eq_false_2 by (intros Hne; by apply Hne).
    reflexivity.
  - rewrite bool_decide_eq_true_2; [reflexivity|].
    intros Hempty. apply Hsome. by apply (proj2 (sourceFiles_empty _)).
Qed.

(** X11: the names of the placeholder files of a run do not depend on the
    order in which its tasks complete nor on the world it starts in: two
    runs of one configuration both reject, or both resolve with
    placeholder files of the same names. *)
Theorem placeholder_file_names_deterministic sched1 sched2 config w1 w2 :
  match (tsForConfig sched1 config w1).1, (tsForConfig sched2 config w2).1 with
  | resolved o1, resolved o2 =>
      dom (customTypeSourceFiles o1) = dom (customTypeSourceFiles o2)
  | rejected _, rejected _ => True
  | _, _ => False
  end.
Proof.
  pose proof (schemas_behaves sched1 config) as Hall1.
  pose proof (schemas_behaves sched2 config) as Hall2.
  destruct (tsForConfig sched1 config w1) as [out1 w1'] eqn:Hrun1.
  destruct (tsForConfig sched2 config w2) as [out2 w2'] eqn:Hrun2.
  run_schemas Hall1 Hrun1. run_schemas Hall2 Hrun2.
  destruct (mapM (schemaDataOf config (db config)) (schemas config))
    as [schemaData|] eqn:HmapM.
  - destruct Hres as [-> Hdom1], Hres0 as [-> Hdom2].
    simpl in Hrun1, Hrun2. injection Hrun1 as <- <-. injection Hrun2 as <- <-.
    simpl. by rewrite !sourceFiles_dom, Hdom1, Hdom2.
  - destruct Hres as [e1 ->], Hres0 as [e2 ->].
    injection Hrun1 as <- <-. injection Hrun2 as <- <-. done.
Qed.

(** X13: a run rejects only with the error the catalog answered to a
    query this run sent, passed on as it is; that query is about a schema
    of the configuration: its relation listing, its enum listing, or the
    columns or the unique indexes of a relation its rules keep. *)
Theorem tsForConfig_rejects_with_catalog_error sched config w e :
  (tsForConfig sched config w).1 = rejected e →
  ∃ queries q schema rules,
    events (tsForConfig sched config w).2 =
      events w ++ [poolNew] ++ map poolQuery queries ∧
    q ∈ queries ∧
    errorOf (db config) q = Some e ∧
    (schema, rules) ∈ schemas config ∧
    queryAbout (db config) schema rules q.
Proof.
  intros Hrun.
  destruct (tsForConfig_log sched config w) as (queries & Habout & Hlog).
  rewrite Hrun in Hlog. destruct Hlog as [Hevents Herror].
  apply Exists_exists in Herror as (q & Hq & Herror).
  rewrite Forall_forall in Habout.
  destruct (Habout q Hq) as (schema & rules & Hentry & Hkind).
  by exists queries, q, schema, rules.
Qed.

End FurtherProperties.

Section CustomTypeFiles.
Context `{Imports}.

Lemma elem_of_map {X Y} (f : X → Y) (l : list X) y :
  y ∈ map f l ↔ ∃ x, f x = y ∧ x ∈ l.
Proof.
  rewrite list_elem_of_In, in_map_iff.
  split; intros (x & Hx & Hin); exists x; by rewrite ?list_elem_of_In in *.
Qed.

(** X14: a run that resolves produces a placeholder file under a name
    exactly when the name is not [__proto__] and some column of a
    relation of some configured schema, among those left by the include
    and exclude rules, registers that name: a column over a domain or of
    an unknown base type.  The columns of excluded relations produce no
    file, and neither does a custom type whose transformed name is
    [__proto__]. *)
Theorem placeholder_file_for_each_custom_column sched config w o :
  (tsForConfig sched config w).1 = resolved o →
  ∀ key, key ∈ dom (customTypeSourceFiles o) ↔
    key ≠ "__proto__" ∧
    ∃ schema rules tables enums rel cols row placeholder,
      (schema, rules) ∈ schemas config ∧
      tablesOf (db config) schema rules = Some tables ∧
      enumRows (db config) schema = rows enums ∧
      rel ∈ tables ∧
      columnRows (db config) rel schema = rows cols ∧
      row ∈ cols ∧
      registration enums config row = Some (key, placeholder).
Proof.
  intros Hrun key.
  pose proof (schemas_behaves sched config) as Hall.
  run_schemas Hall Hrun.
  destruct (mapM (schemaDataOf config (db config)) (schemas config))
    as [schemaData|] eqn:HmapM;
    [destruct Hres as [-> Hdom]|destruct Hres as [e ->]; done].
  simpl in Hrun. injection Hrun as <-. simpl in *.
  rewrite sourceFiles_dom, Hdom, dom_empty_L, (left_id_L ∅ (∪)).
  rewrite elem_of_union_list. split.
  - intros (keys & Hkeys & Hkey).
    apply elem_of_map in Hkeys as ([schema rules] & <- & Hentry).
    unfold schemaKeysOf in Hkey. simpl in Hkey.
    destruct (tablesOf (db config) schema rules) as [tables|] eqn:Htables;
      [|set_solver].
    destruct (enumRows (db config) schema) as [enums|] eqn:Henums; [|set_solver].
    apply elem_of_union_list in Hkey as (keys & Hkeys & Hkey).
    apply elem_of_map in Hkeys as (rel & <- & Hrel).
    unfold tableKeysOf in Hkey.
    destruct (columnRows (db config) rel schema) as [cols|] eqn:Hcols; [|set_solver].
    apply elem_of_list_to_set, list_elem_of_filter in Hkey as [Hproto Hkey].
    apply list_elem_of_fmap in Hkey as ([key' placeholder] & -> & Hreg).
    apply list_elem_of_omap in Hreg as (row & Hrow & Hreg).
    split; [done|].
    by exists schema, rules, tables, enums, rel, cols, row, placeholder.
  - intros (Hproto & schema & rules & tables & enums & rel & cols & row & placeholder &
            Hentry & Htables & Henums & Hrel & Hcols & Hrow & Hreg).
    exists (schemaKeysOf config (db config) (schema, rules)). split.
    { apply elem_of_map. by exists (schema, rules). }
    unfold schemaKeysOf. simpl. rewrite Htables, Henums.
    apply elem_of_union_list.
    exists (tableKeysOf config (db config) schema enums rel). split.
    { apply elem_of_map. by exists rel. }
    unfold tableKeysOf. rewrite Hcols.
    apply elem_of_list_to_set, list_elem_of_filter. split; [done|].
    apply list_elem_of_fmap.
    exists (key, placeholder). split; [done|].
    apply list_elem_of_omap. by exists row.
Qed.

End CustomTypeFiles.

(** ** The further properties on the sample inputs *)

Lemma transformCustomType_of_legal_name_witness :
  transformCustomType "validated_json" Sample.config = "PgValidated_json".
Proof.
  apply (transformCustomType_of_legal_name "validated_json" Sample.config).
  reflexivity.
Defined.

Lemma declareModule_lines_witness :
  declareModule "zapatos/custom" (join nl ["export type a = {"; ""; "  b: c;"; "};"]) =
  nl +:+ "declare module '" +:+ "zapatos/custom" +:+ "' {" +:+ nl +:+
  join nl ["  export type a = {"; ""; "    b: c;"; "  };"] +:+ nl +:+
  "}" +:+ nl.
Proof.
  apply (declareModule_lines "zapatos/custom"
           ["export type a = {"; ""; "  b: c;"; "};"]).
  repeat (constructor; [reflexivity|]). constructor.
Defined.

Lemma placeholder_file_witness :
  sourceFilesForCustomTypes {[ "PgValidated_json" := "db.JSONValue" ]}
    !! "PgValidated_json" =
  Some (
    customTypeHeader +:+ nl +:+
    "declare module 'zapatos/custom' {" +:+ nl +:+
    "  import type * as db from 'zapatos/db';" +:+ nl +:+
    "  export type PgValidated_json = db.JSONValue;  // replace with your custom type or interface as desired" +:+ nl +:+
    "}" +:+ nl).
Proof.
  apply (placeholder_file {[ "PgValidated_json" := "db.JSONValue" ]}
           "PgValidated_json" "db.JSONValue").
  - vm_compute. reflexivity.
  - reflexivity.
  - reflexivity.
Defined.

Lemma generated_columns_not_writable_witness :
  let sh := (foldl (forEachRow (H := Sample.imports) Sample.stats [] Sample.config)
                   (noShapes, ∅) [Sample.total]).1 in
  insertables sh = [] ∧ updatables sh = [] ∧
  length (selectables sh) = length [Sample.total] ∧
  length (whereables sh) = length [Sample.total].
Proof.
  apply (generated_columns_not_writable (H := Sample.imports) Sample.stats []
           Sample.config ∅ [Sample.total]).
  repeat (constructor; [reflexivity|]). constructor.
Defined.

Lemma role_inclusion_by_override_witness :
  let rows := Sample.columnsOf Sample.apple in
  let sh := (foldl (forEachRow (H := Sample.imports) Sample.apple [] Sample.config)
                   (noShapes, ∅) rows).1 in
  let o row := overrideFor (columnOptions Sample.config) (name Sample.apple)
                 (column row) in
  let types row :=
    basicInsertableTypes row
      (tsTypeForPgType (Imports := Sample.imports) (udtName row) [])
      (resolvedType (H := Sample.imports) row [] Sample.config) in
  selectables sh =
    map (λ row, column row +:+ ": " +:+
                resolvedType (H := Sample.imports) row [] Sample.config +:+
                (if isNullable row then " | null" else "") +:+ ";") rows ∧
  whereables sh = map (whereableFor (H := Sample.imports) [] Sample.config) rows ∧
  (∀ row, ∃ valueTypes, whereableFor (H := Sample.imports) [] Sample.config row =
     column row +:+ "?: " +:+ valueTypes) ∧
  insertables sh =
    map (λ row, column row +:+
                (if decide (isNullable row = true ∨ hasDefault row = true ∨
                            o row ≫= ColumnOptions.insert = Some insertOptional)
                 then "?" else "") +:+
                ": " +:+ types row +:+ ";")
        (filter (λ row, isGenerated row = false ∧
                        o row ≫= ColumnOptions.insert ≠ Some insertExcluded) rows) ∧
  updatables sh =
    map (λ row, column row +:+ "?: " +:+ types row +:+
                " | db.SQLFragment<any, " +:+ types row +:+ ">;")
        (filter (λ row, isGenerated row = false ∧
                        o row ≫= ColumnOptions.update ≠ Some updateExcluded) rows).
Proof.
  apply (role_inclusion_by_override (H := Sample.imports) Sample.apple []
           Sample.config ∅ (Sample.columnsOf Sample.apple)).
  - reflexivity.
  - repeat (constructor; [reflexivity|]). constructor.
Defined.

Lemma tables_of_schema_witness :
  ∃ rels,
    relationRows Sample.catalog "public" = rows rels ∧
    tables Sample.publicData `sublist_of` rels ∧
    ∀ rel, rel ∈ tables Sample.publicData ↔
           rel ∈ rels ∧
           (include Sample.rules = star ∨
            ∃ included, include Sample.rules = names included ∧ name rel ∈ included) ∧
           name rel ∉ ["stats"].
Proof.
  apply (tables_of_schema (H := Sample.imports) Sample.inOrder Sample.config
           Sample.catalog "public" Sample.rules Sample.start Sample.publicData ["stats"]).
  - vm_compute. reflexivity.
  - reflexivity.
Defined.

Lemma excluded_schema_run_witness :
  schemaDataFor (H := Sample.imports) Sample.inOrder Sample.config Sample.catalog
    "audit" Sample.excludeAll Sample.start =
  (resolved {| schemaDef :=
                 nl +:+ "/* === schema: audit === */" +:+ nl +:+
                 nl +:+ "/* --- enums --- */" +:+ nl +:+
                 nl +:+ nl +:+ "/* --- tables --- */" +:+ nl;
               tables := [] |},
   {| registry := ∅; events := [poolQuery (enumsQuery "audit")] |}).
Proof.
  apply (excluded_schema_run (H := Sample.imports) Sample.inOrder Sample.config
           Sample.catalog "audit" Sample.excludeAll Sample.start).
  reflexivity.
Defined.

Lemma tsForConfig_text_witness :
  ∃ schemaData schemaDefs allTables,
    Forall2 (λ entry data, ∀ w',
       (schemaDataFor (H := Sample.imports) Sample.inOrder Sample.config
          (db Sample.config) entry.1 entry.2 w').1 = resolved data)
      (schemas Sample.config) schemaData ∧
    schemaDefs ≡ₚ map schemaDef schemaData ∧
    Sorted String.le schemaDefs ∧
    allTables ≡ₚ concat (map tables schemaData) ∧
    ((∀ a b, (localeCompare (Imports := Sample.imports) a b ≤ 0)%Z ∨
             (localeCompare (Imports := Sample.imports) b a ≤ 0)%Z) →
     Sorted (λ a b, (localeCompare (Imports := Sample.imports) (name a) (name b) ≤ 0)%Z)
            allTables) ∧
    ts sampleOutput =
      header (Imports := Sample.imports) +:+ declareModule "zapatos/schema" (
        nl +:+ "import type * as db from 'zapatos/db';" +:+ nl +:+
        (if decide (customTypeSourceFiles sampleOutput = ∅) then ""
         else "import type * as c from 'zapatos/custom';" +:+ nl) +:+
        versionCanary +:+
        join (nl +:+ nl) schemaDefs +:+
        nl +:+ nl +:+ "/* === cross-table types === */" +:+ nl +:+
        crossTableTypesForTables allTables).
Proof.
  apply (tsForConfig_text (H := Sample.imports) Sample.inOrder Sample.config
           Sample.start sampleOutput).
  vm_compute. reflexivity.
Defined.

Lemma tsForConfig_rejects_with_catalog_error_witness :
  ∃ queries q schema rules,
    events (tsForConfig (H := Sample.imports) Sample.inOrder Sample.failing
              Sample.start).2 =
      events Sample.start ++ [poolNew] ++ map poolQuery queries ∧
    q ∈ queries ∧
    errorOf (db Sample.failing) q = Some "connection refused" ∧
    (schema, rules) ∈ schemas Sample.failing ∧
    queryAbout (db Sample.failing) schema rules q.
Proof.
  apply (tsForConfig_rejects_with_catalog_error (H := Sample.imports) Sample.inOrder
           Sample.failing Sample.start).
  vm_compute. reflexivity.
Defined.

Lemma placeholder_file_for_each_custom_column_witness :
  "PgGeometry" ∈ dom (customTypeSourceFiles sampleOutput) ↔
    "PgGeometry" ≠ "__proto__" ∧
    ∃ schema rules tables enums rel cols row placeholder,
      (schema, rules) ∈ schemas Sample.config ∧
      tablesOf (db Sample.config) schema rules = Some tables ∧
      enumRows (db Sample.config) schema = rows enums ∧
      rel ∈ tables ∧
      columnRows (db Sample.config) rel schema = rows cols ∧
      row ∈ cols ∧
      registration (H := Sample.imports) enums Sample.config row =
        Some ("PgGeometry", placeholder).
Proof.
  apply (placeholder_file_for_each_custom_column (H := Sample.imports) Sample.inOrder
           Sample.config Sample.start sampleOutput).
  vm_compute. reflexivity.
Defined.
